(** * Expense dashboard: the derived summaries and the quick-add form

    A shallow embedding of [ExpenseDashboard] (src/dashboard/src/app/layout.tsx):
    the filtered expense list, the [totals] memo (total, per-category
    breakdown, top category, average), the recent-activity slice, the
    submit handler of the quick-add form, the month options and the divisor
    of the breakdown bars.

    JavaScript values are modelled as the language defines them: a string is
    a sequence of UTF-16 code units, a number is an IEEE 754 binary64 value
    (Rocq's primitive [float], whose operations are the binary64 ones with
    round-to-nearest-even, as [+], [-] and [/] are in JavaScript). The
    built-ins [toFixed] and [Number], which write and read the stored amount,
    are defined on the exact value of the number. *)

From Stdlib Require Import ZArith NArith Lia Floats QArith Qpower Lqa.
From Stdlib Require Import Strings.String Strings.Ascii.
From stdpp Require Import base tactics decidable option list sorting.

Close Scope Q_scope.

Set Warnings "-inexact-float".

(** ** JavaScript strings *)

Module JS.

(** A string value: its UTF-16 code units. *)
Definition jsstring := list N.

(** The code units of an ASCII literal. *)
Definition str (s : string) : jsstring :=
  N_of_ascii <$> list_ascii_of_string s.

(** WhiteSpace and LineTerminator code points of ECMAScript, the ones
    [String.prototype.trim] strips; all lie in the basic plane. *)
Definition isWhiteSpace (c : N) : bool :=
  ((9 <=? c) && (c <=? 13) || (c =? 32) || (c =? 160) || (c =? 5760)
   || (8192 <=? c) && (c <=? 8202) || (c =? 8232) || (c =? 8233)
   || (c =? 8239) || (c =? 8287) || (c =? 12288) || (c =? 65279))%N.

Fixpoint trimStart (s : jsstring) : jsstring :=
  match s with
  | c :: s' => if isWhiteSpace c then trimStart s' else s
  | [] => []
  end.

Definition trimEnd (s : jsstring) : jsstring :=
  reverse (trimStart (reverse s)).

(** [s.trim()] *)
Definition trim (s : jsstring) : jsstring := trimEnd (trimStart s).

(** [s.startsWith(t)] *)
Fixpoint startsWith (s t : jsstring) {struct t} : bool :=
  match t with
  | [] => true
  | b :: t' =>
      match s with
      | [] => false
      | a :: s' => (a =? b)%N && startsWith s' t'
      end
  end.

(** [s.includes(t)]: [t] occurs in [s] at some position. *)
Fixpoint includes (s t : jsstring) : bool :=
  startsWith s t ||
  match s with
  | [] => false
  | _ :: s' => includes s' t
  end.

(** Truthiness of a string: the empty string is the only falsy one. *)
Definition truthy (s : jsstring) : bool :=
  match s with [] => false | _ :: _ => true end.

(** [t] is a substring of [s]. *)
Definition is_substring (t s : jsstring) : Prop :=
  ∃ pre post, s = pre ++ t ++ post.

(** A string of white space only (the empty string included). *)
Definition blank (s : jsstring) : Prop := Forall (λ c, isWhiteSpace c = true) s.

End JS.

Import JS.

(** ** JavaScript numbers *)

(** The Number type: binary64. *)
Abbreviation number := float.

(** The number of a list length (exact below 2^53; array lengths stay
    below 2^32). *)
Definition of_length (n : nat) : number :=
  PrimFloat.of_uint63 (Uint63.of_Z (Z.of_nat n)).

(** A binary64 value in the specification's form is signed when it is finite
    and not zero, or infinite. *)
Definition signed (s : bool) (f : spec_float) : Prop :=
  match f with
  | S754_finite s' _ _ | S754_infinity s' => s' = s
  | _ => False
  end.

(** ** The data model

    [Expense], [CATEGORIES] and [useExpenseStore] are declared in
    lib/expense-store, and [getMonthKey] in lib/format; the dashboard imports
    them. [Expense] is given the fields the dashboard reads and writes. The
    unions [Expense["category"]] and [Expense["paymentMethod"]] are type
    parameters: their members are ordinary names ("Food", "Card"), so an
    object keyed by categories enumerates them in insertion order. *)

Record Expense {Category PaymentMethod : Type} := mkExpense {
  id : jsstring;
  description : jsstring;
  amount : number;
  category : Category;
  paymentMethod : PaymentMethod;
  date : jsstring;
  notes : option jsstring
}.
Arguments Expense : clear implicits.
Arguments mkExpense {_ _}.

(** The argument of [addExpense]: an expense without its [id]. *)
Module Input.
Record t {Category PaymentMethod : Type} := mk {
  description : jsstring;
  amount : number;
  category : Category;
  paymentMethod : PaymentMethod;
  date : jsstring;
  notes : option jsstring
}.
Arguments t : clear implicits.
Arguments mk {_ _}.
End Input.

(** [ExpenseFormState] *)
Module Form.
Record t {Category PaymentMethod : Type} := mk {
  description : jsstring;
  amount : jsstring;
  category : Category;
  paymentMethod : PaymentMethod;
  date : jsstring;
  notes : jsstring
}.
Arguments t : clear implicits.
Arguments mk {_ _}.
End Form.

(** [type CategoryFilter = Expense["category"] | "All"] *)
Inductive CategoryFilter {Category : Type} :=
  | All
  | Only (c : Category).
Arguments CategoryFilter : clear implicits.

(** ** Objects used as records

    [Record<string, number>] as the reducer builds it: the own properties in
    insertion order, which is the order [Object.entries] lists them in. *)

Module Rec.
Section rec.
Context {K : Type} `{EqDecision K}.

Definition t := list (K * number).

(** [acc[k]], [None] for [undefined] *)
Fixpoint get (k : K) (acc : t) : option number :=
  match acc with
  | [] => None
  | (k', v) :: acc' => if decide (k' = k) then Some v else get k acc'
  end.

(** [acc[k] = v]: an existing property keeps its place, a new one is added
    last. *)
Fixpoint set (k : K) (v : number) (acc : t) : t :=
  match acc with
  | [] => [(k, v)]
  | (k', v') :: acc' =>
      if decide (k' = k) then (k, v) :: acc' else (k', v') :: set k v acc'
  end.

Definition entries (acc : t) : list (K * number) := acc.
Definition values (acc : t) : list number := snd <$> acc.
Definition keys (acc : t) : list K := fst <$> acc.
End rec.
Arguments t : clear implicits.
End Rec.

(** ** Arrays *)

(** [x ?? d] on an optional number *)
Definition nullish (x : option number) (d : number) : number := default d x.

Section sort.
Context {A : Type}.

(** SortCompare: the comparator's result, with NaN read as +0. *)
Definition sortCompare (comparefn : A → A → number) (x y : A) : number :=
  let v := comparefn x y in
  if PrimFloat.is_nan v then 0%float else v.

(** [x] enters a sorted run behind the elements it must follow: those for
    which the comparator is positive. *)
Fixpoint sort_insert (comparefn : A → A → number) (x : A) (l : list A) : list A :=
  match l with
  | [] => [x]
  | y :: l' =>
      if (0 <? sortCompare comparefn x y)%float
      then y :: sort_insert comparefn x l'
      else x :: l
  end.

(** [Array.prototype.sort(comparefn)]: a stable sort (elements that compare
    equal keep their order), here by insertion, from the right. Where the
    comparator is not consistent (a NaN among the values compared by
    difference), ECMAScript leaves the order to the implementation; two
    entries that compare equal both ways keep their order in any case. *)
Definition sort (comparefn : A → A → number) (l : list A) : list A :=
  foldr (sort_insert comparefn) [] l.
End sort.

(** ** Strings in order, sets of strings, [Math.max] *)

(** [s < t] on strings: code unit by code unit; a proper prefix is less. *)
Fixpoint lessThan (s t : jsstring) : bool :=
  match s, t with
  | _, [] => false
  | [], _ :: _ => true
  | a :: s', b :: t' => (a <? b)%N || (a =? b)%N && lessThan s' t'
  end.

(** The comparison of [sort()] without a comparator, on strings. *)
Definition defaultCompare (x y : jsstring) : number :=
  if lessThan x y then (-1)%float
  else if lessThan y x then 1%float
  else 0%float.

(** [Set<string>]: the values in insertion order, each once. *)
Module StringSet.

Definition t := list jsstring.

Definition empty : t := [].

(** [set.add(x)] *)
Definition add (x : jsstring) (set : t) : t :=
  if decide (x ∈ set) then set else set ++ [x].

(** [new Set(array)] *)
Definition of_array (array : list jsstring) : t :=
  fold_left (λ set x, add x set) array empty.

(** [Array.from(set)], [Array.from(set.values())] *)
Definition values (set : t) : list jsstring := set.

End StringSet.

(** The number is [+0], is [-0]. *)
Definition isPositiveZero (n : number) : bool :=
  (n =? 0)%float && negb (PrimFloat.get_sign n).

Definition isNegativeZero (n : number) : bool :=
  (n =? 0)%float && PrimFloat.get_sign n.

(** One step of [Math.max], on a value that is not NaN. *)
Definition maxStep (highest value : number) : number :=
  let highest :=
    if isPositiveZero value && isNegativeZero highest then 0%float
    else highest in
  if (highest <? value)%float then value else highest.

(** [Math.max(...numbers)]: NaN when a number is NaN, the least upper bound
    otherwise, from [-Infinity]. *)
Definition mathMax (numbers : list number) : number :=
  if existsb PrimFloat.is_nan numbers then nan
  else fold_left maxStep numbers neg_infinity.

(** ** The dashboard *)

Section Dashboard.

(** The two unions of lib/expense-store. *)
Context {Category PaymentMethod : Type} `{EqDecision Category}.

(** [getMonthKey] of lib/format. *)
Variable getMonthKey : jsstring → jsstring.

(** [String.prototype.toLowerCase]: the Unicode lower-case mapping. *)
Variable toLowerCase : jsstring → jsstring.

Local Abbreviation Expense := (Expense Category PaymentMethod).
Local Abbreviation CategoryFilter := (CategoryFilter Category).

(** The predicate of [expenses.filter] in the [filteredExpenses] memo. *)
Definition matchesFilters (categoryFilter : CategoryFilter)
    (monthFilter searchTerm : jsstring) (expense : Expense) : bool :=
  let matchesCategory :=
    match categoryFilter with
    | All => true
    | Only c => bool_decide (category expense = c)
    end in
  let matchesMonth :=
    bool_decide (monthFilter = str "all")
    || bool_decide (getMonthKey (date expense) = monthFilter) in
  let matchesSearch :=
    negb (truthy searchTerm)
    || includes (toLowerCase (description expense)) (toLowerCase searchTerm) in
  matchesCategory && matchesMonth && matchesSearch.

Definition filteredExpenses (expenses : list Expense)
    (categoryFilter : CategoryFilter) (monthFilter searchTerm : jsstring)
    : list Expense :=
  List.filter (matchesFilters categoryFilter monthFilter searchTerm) expenses.

(** The [totals] memo, field by field. *)

Definition total (filteredExpenses : list Expense) : number :=
  fold_left (λ sum expense, (sum + amount expense)%float) filteredExpenses 0%float.

Definition categories (filteredExpenses : list Expense) : Rec.t Category :=
  fold_left
    (λ acc expense,
       Rec.set (category expense)
         (nullish (Rec.get (category expense) acc) 0%float + amount expense)%float
         acc)
    filteredExpenses [].

Definition topCategory (filteredExpenses : list Expense)
    : option (Category * number) :=
  head (sort (λ '(_, a) '(_, b), (b - a)%float)
             (Rec.entries (categories filteredExpenses))).

Definition average (filteredExpenses : list Expense) : number :=
  if decide (length filteredExpenses = 0%nat)
  then 0%float
  else (total filteredExpenses / of_length (length filteredExpenses))%float.

(** [totals.categories[category] ?? 0], the value of a breakdown bar. *)
Definition breakdown (filteredExpenses : list Expense) (c : Category) : number :=
  nullish (Rec.get c (categories filteredExpenses)) 0%float.

Definition recentExpenses (filteredExpenses : list Expense) : list Expense :=
  take 6 filteredExpenses.

(** *** The quick-add form *)

(** [Number.parseFloat], [Number.prototype.toFixed] and [Number] applied to a
    string: the conversions between numbers and their decimal notation. *)
Variable parseFloat : jsstring → number.
Variable toFixed : number → nat → jsstring.
Variable ToNumber : jsstring → number.

(** [now.toISOString().slice(0, 10)], read once when the module loads. *)
Variable todayIso : jsstring.

(** The members ["Food"] and ["Card"] of the two unions. *)
Variable Food : Category.
Variable Card : PaymentMethod.

Local Abbreviation Input := (Input.t Category PaymentMethod).
Local Abbreviation ExpenseFormState := (Form.t Category PaymentMethod).

Definition defaultFormState : ExpenseFormState :=
  {| Form.description := [];
     Form.amount := [];
     Form.category := Food;
     Form.paymentMethod := Card;
     Form.date := todayIso;
     Form.notes := [] |}.

(** What [useExpenseStore()] returns, over the state [S] of the store. *)
Class ExpenseStore (S : Type) := {
  expenses : S → list Expense;
  addExpense : Input → S → S;
  removeExpense : jsstring → S → S;
  reset : S → S
}.

(** The state of the component: the store and the four [useState] cells. *)
Record State {S : Type} := mkState {
  store : S;
  form : ExpenseFormState;
  categoryFilter : CategoryFilter;
  monthFilter : jsstring;
  searchTerm : jsstring
}.
Arguments State : clear implicits.

Definition callStore {S : Type} (f : S → S) (st : State S) : State S :=
  mkState S (f (store st)) (form st) (categoryFilter st) (monthFilter st)
    (searchTerm st).

Definition setForm {S : Type} (f : ExpenseFormState → ExpenseFormState)
    (st : State S) : State S :=
  mkState S (store st) (f (form st)) (categoryFilter st) (monthFilter st)
    (searchTerm st).

(** [value || undefined] on a string *)
Definition orUndefined (s : jsstring) : option jsstring :=
  if truthy s then Some s else None.

(** [handleSubmit]; [event.preventDefault()] touches the event only. *)
Definition handleSubmit {S : Type} `{!ExpenseStore S} (st : State S) : State S :=
  let amount := parseFloat (Form.amount (form st)) in
  if negb (truthy (trim (Form.description (form st))))
     || PrimFloat.is_nan amount
     || (amount <=? 0%float)%float
  then st
  else
    let st :=
      callStore
        (addExpense
           {| Input.description := trim (Form.description (form st));
              Input.amount := ToNumber (toFixed amount 2);
              Input.category := Form.category (form st);
              Input.paymentMethod := Form.paymentMethod (form st);
              Input.date := Form.date (form st);
              Input.notes := orUndefined (trim (Form.notes (form st))) |})
        st in
    setForm
      (λ state,
        {| Form.description := Form.description defaultFormState;
           Form.amount := Form.amount defaultFormState;
           Form.category := Form.category defaultFormState;
           Form.paymentMethod := Form.paymentMethod defaultFormState;
           Form.date := Form.date state;
           Form.notes := Form.notes defaultFormState |})
      st.

(** *** The month options, the first render, the breakdown bars *)

Definition buildMonthOptions (expenses : list Expense) : list jsstring :=
  let unique :=
    fold_left
      (λ unique expense, StringSet.add (getMonthKey (date expense)) unique)
      expenses StringSet.empty in
  let months := reverse (sort defaultCompare (StringSet.values unique)) in
  let currentMonth := getMonthKey todayIso in
  StringSet.values (StringSet.of_array (currentMonth :: months)).

(** The component when it mounts: the initial values of its [useState]
    cells, over the store. *)
Definition initialState {S : Type} (store : S) : State S :=
  {| store := store;
     form := defaultFormState;
     categoryFilter := All;
     monthFilter := getMonthKey todayIso;
     searchTerm := [] |}.

(** [max] of a breakdown bar: [Math.max(1, ...Object.values(totals.categories))],
    the divisor of the bar's [value]. *)
Definition breakdownMax (filteredExpenses : list Expense) : number :=
  mathMax (1%float :: Rec.values (categories filteredExpenses)).

End Dashboard.

Arguments ExpenseStore : clear implicits.
Arguments State : clear implicits.

(** ** The store *)

Section LocalStore.
Context {Category PaymentMethod : Type}.

Local Abbreviation Expense := (Expense Category PaymentMethod).
Local Abbreviation Input := (Input.t Category PaymentMethod).

(** How the store names a new expense, and the demo data that "Reset demo
    data" restores. *)
Variable newId : list Expense → jsstring.
Variable seed : list Expense.

(** Modelled from the spec: the browser-local storage that [useExpenseStore]
    of lib/expense-store wraps (the dashboard only imports the hook): the item
    under the store's key, [None] while nothing was written. *)
Definition Storage := option (list Expense).

(** Modelled from the spec: the state of [useExpenseStore], "a local reactive
    store wrapping browser storage": the expenses in memory and the storage
    behind them. *)
Record LocalStore := mkLocalStore {
  items : list Expense;
  localStorage : Storage
}.

(** Modelled from the spec: the store of a session that starts; it reads the
    storage, where earlier sessions "persist[ed] them". *)
Definition openStore (storage : Storage) : LocalStore :=
  {| items := default seed storage; localStorage := storage |}.

(** Modelled from the spec: a change of the list, which the store "persists
    ... in browser-local storage". *)
Definition commit (items : list Expense) : LocalStore :=
  {| items := items; localStorage := Some items |}.

(** The expense recorded for an input. *)
Definition recorded (id : jsstring) (input : Input) : Expense :=
  {| id := id;
     description := Input.description input;
     amount := Input.amount input;
     category := Input.category input;
     paymentMethod := Input.paymentMethod input;
     date := Input.date input;
     notes := Input.notes input |}.

(** Modelled from the spec: [addExpense] of [useExpenseStore]: the new
    expense joins the list, in front, and the list is persisted. *)
Definition localAdd (input : Input) (s : LocalStore) : LocalStore :=
  commit (recorded (newId (items s)) input :: items s).

(** Modelled from the spec: [removeExpense] of [useExpenseStore]. *)
Definition localRemove (i : jsstring) (s : LocalStore) : LocalStore :=
  commit (List.filter (λ e, negb (bool_decide (id e = i))) (items s)).

(** Modelled from the spec: [reset] of [useExpenseStore]. *)
Definition localReset (s : LocalStore) : LocalStore := commit seed.

#[export] Instance localExpenseStore : ExpenseStore Category PaymentMethod LocalStore :=
  {| expenses := items;
     addExpense := localAdd;
     removeExpense := localRemove;
     reset := localReset |}.

End LocalStore.

(** ** Numbers in decimal notation

    The built-ins that [handleSubmit] applies to the parsed amount:
    [Number.prototype.toFixed] writes a number in decimal notation and
    [Number], applied to a string, reads one (StringToNumber). Both are
    defined by ECMAScript on the mathematical value of the number, a signed
    integer times a power of two, and are given here in exact integer
    arithmetic. *)

(** The Number value for the rational [n / d], with [0 <= n] and [0 < d]: the
    binary64 value nearest to it, the one with an even significand of two
    that are as near, an infinity from [2^1024 - 2^970] on. It is the
    rounding of binary64 division, taken on the two integers. *)
Definition NumberValue (n d : Z) : number :=
  match n, d with
  | Zpos n, Zpos d =>
      SF2Prim (SFdiv prec emax (S754_finite false n 0) (S754_finite false d 0))
  | _, _ => 0%float
  end.

(** The Number value for [s * 10 ^ e]. *)
Definition decimalValue (s e : Z) : number :=
  if (0 <=? e)%Z then NumberValue (s * 10 ^ e) 1 else NumberValue s (10 ^ (- e)).

(** The code unit of a decimal digit. *)
Definition digitUnit (d : Z) : N := (48 + Z.to_N d)%N.

Fixpoint decimalDigits (fuel : nat) (n : Z) : jsstring :=
  match fuel with
  | O => []
  | S fuel =>
      (if (n <? 10)%Z then [] else decimalDigits fuel (n / 10))
      ++ [digitUnit (n mod 10)]
  end.

(** The decimal digits of a natural number, without leading zeros ("0" for
    zero); a number has at most one decimal digit for each binary one. *)
Definition decimal (n : Z) : jsstring :=
  decimalDigits (S (Z.to_nat (Z.log2 n))) n.

(** The value of a digit of the radix: [0-9], [a-z], [A-Z]. *)
Definition digitValue (radix : Z) (c : N) : option Z :=
  let v :=
    if (48 <=? c)%N && (c <=? 57)%N then Some (Z.of_N c - 48)%Z
    else if (97 <=? c)%N && (c <=? 122)%N then Some (Z.of_N c - 87)%Z
    else if (65 <=? c)%N && (c <=? 90)%N then Some (Z.of_N c - 55)%Z
    else None in
  v ≫= λ v, if (v <? radix)%Z then Some v else None.

(** The digits at the front of [s], continuing the value [acc]: the value,
    the number of digits read and the rest of [s]. *)
Fixpoint readDigits (radix : Z) (s : jsstring) (acc : Z) (n : nat)
    : Z * nat * jsstring :=
  match s with
  | c :: s' =>
      match digitValue radix c with
      | Some d => readDigits radix s' (radix * acc + d)%Z (S n)
      | None => (acc, n, s)
      end
  | [] => (acc, n, [])
  end.

(** A sign in front of [s], if any: whether it is [-], and the rest. *)
Definition signOf (s : jsstring) : bool * jsstring :=
  match s with
  | c :: s' =>
      if (c =? 45)%N then (true, s')
      else if (c =? 43)%N then (false, s')
      else (false, s)
  | [] => (false, [])
  end.

(** ExponentPart, or nothing, up to the end of the string: [e] or [E], a
    sign or none, digits. *)
Definition exponentPart (s : jsstring) : option Z :=
  match s with
  | [] => Some 0%Z
  | c :: s' =>
      if (c =? 101)%N || (c =? 69)%N then
        let '(negative, s'') := signOf s' in
        match readDigits 10 s'' 0 0 with
        | (v, S _, []) => Some (if negative then (- v)%Z else v)
        | _ => None
        end
      else None
  end.

(** StrUnsignedDecimalLiteral other than [Infinity]: digits with a point
    among them, before them or after them, or without one, then an exponent
    part or nothing. The result [(m, e)] stands for [m * 10 ^ e]. *)
Definition unsignedDecimal (s : jsstring) : option (Z * Z) :=
  let '(i, ni, r) := readDigits 10 s 0 0 in
  let '(m, nf, r) :=
    match r with
    | c :: r' => if (c =? 46)%N then readDigits 10 r' i 0 else (i, 0%nat, r)
    | [] => (i, 0%nat, [])
    end in
  if (ni + nf =? 0)%nat then None
  else (λ e, (m, e - Z.of_nat nf)%Z) <$> exponentPart r.

(** NonDecimalIntegerLiteral: [0x], [0o] or [0b], in either case, and digits
    of that radix. *)
Definition nonDecimal (s : jsstring) : option Z :=
  match s with
  | c0 :: c :: s' =>
      let radix :=
        if (c =? 120)%N || (c =? 88)%N then Some 16%Z
        else if (c =? 111)%N || (c =? 79)%N then Some 8%Z
        else if (c =? 98)%N || (c =? 66)%N then Some 2%Z
        else None in
      if (c0 =? 48)%N then
        radix ≫= λ radix,
          match readDigits radix s' 0 0 with
          | (v, S _, []) => Some v
          | _ => None
          end
      else None
  | _ => None
  end.

(** [Number(s)] on a string (StringToNumber): white space around the literal
    is skipped, the empty string is [+0], a string that is no
    StringNumericLiteral is NaN. Only a decimal literal takes a sign. The
    value is rounded once, from the exact value of the literal, as the
    engines do (ECMAScript lets an implementation approximate a literal of
    more than 20 significant digits). *)
Definition ToNumber (s : jsstring) : number :=
  match trim s with
  | [] => 0%float
  | s =>
      match nonDecimal s with
      | Some v => NumberValue v 1
      | None =>
          let '(negative, u) := signOf s in
          let v :=
            if bool_decide (u = str "Infinity") then Some infinity
            else (λ '(m, e), decimalValue m e) <$> unsignedDecimal u in
          match v with
          | Some v => if negative then (- v)%float else v
          | None => nan
          end
      end
  end.

(** The digits of [n] with a point in front of the last [f] of them, and
    zeros in front where [n] has no more than [f] digits (the last steps of
    [toFixed]). *)
Definition fixedNotation (n : Z) (f : nat) : jsstring :=
  let m := decimal n in
  if (f =? 0)%nat then m
  else
    let m :=
      if (length m <=? f)%nat then replicate (f + 1 - length m) 48%N ++ m
      else m in
    let k := length m in
    take (k - f) m ++ str "." ++ drop (k - f) m.

(** The notation of [Number::toString] for the digits [ds] of a number
    between [10 ^ (n - 1)] and [10 ^ n]: plain digits, a point among them, or
    an exponent, by [n]. *)
Definition scientific (n : Z) (ds : jsstring) : jsstring :=
  let k := Z.of_nat (length ds) in
  if (k <=? n)%Z && (n <=? 21)%Z then ds ++ replicate (Z.to_nat (n - k)) 48%N
  else if (0 <? n)%Z && (n <=? 21)%Z
  then take (Z.to_nat n) ds ++ str "." ++ drop (Z.to_nat n) ds
  else if (-6 <? n)%Z && (n <=? 0)%Z
  then str "0." ++ replicate (Z.to_nat (- n)) 48%N ++ ds
  else
    let e := (n - 1)%Z in
    let exponent := str (if (e <? 0)%Z then "-" else "+") ++ decimal (Z.abs e) in
    match ds with
    | [] => []
    | [d] => [d] ++ str "e" ++ exponent
    | d :: ds' => [d] ++ str "." ++ ds' ++ str "e" ++ exponent
    end.

Fixpoint leadingZeros (fuel : nat) (num den : Z) : nat :=
  match fuel with
  | O => O
  | S fuel =>
      if (den <=? 10 * num)%Z then O
      else S (leadingZeros fuel (10 * num) den)
  end.

(** The [n] with [10 ^ (n - 1) <= num / den < 10 ^ n]. *)
Definition decimalExponent (num den : Z) : Z :=
  if (den <=? num)%Z then Z.of_nat (length (decimal (num / den)))
  else (- Z.of_nat (leadingZeros (S (Z.to_nat (Z.log2 den))) num den))%Z.

Section shortest.

(** The positive finite number to write, of significand [m] and exponent
    [e], and its value [num / den]. *)
Variable m : positive.
Variable e : Z.
Variables num den : Z.

(** [s * 10 ^ (n - k)] reads back as the number. *)
Definition reads (s n k : Z) : bool :=
  match Prim2SF (decimalValue s (n - k)) with
  | S754_finite false m' e' => (m' =? m)%positive && (e' =? e)%Z
  | _ => false
  end.

(** The [k]-digit decimals on either side of the number; of those that read
    back as the number, the nearer one. *)
Definition candidate (n0 k : Z) : option (Z * Z) :=
  let a := (num * 10 ^ Z.max 0 (k - n0))%Z in
  let b := (den * 10 ^ Z.max 0 (n0 - k))%Z in
  let lo := (a / b)%Z in
  let r := (a mod b)%Z in
  let hi :=
    if (lo + 1 =? 10 ^ k)%Z then (10 ^ (k - 1), n0 + 1)%Z else (lo + 1, n0)%Z in
  let lower := reads lo n0 k in
  let upper := reads hi.1 hi.2 k in
  if lower && upper then
    Some (if (2 * r <? b)%Z then (lo, n0)
          else if (b <? 2 * r)%Z then hi
          else if Z.even lo then (lo, n0) else hi)
  else if lower then Some (lo, n0)
  else if upper then Some hi
  else None.

(** The digits [s] and the exponent [n] of [Number::toString]: as few digits
    as read back as the number, tried from [k] digits on. *)
Fixpoint shortestFrom (fuel : nat) (n0 k : Z) : Z * Z :=
  match fuel with
  | O => ((num * 10 ^ Z.max 0 (k - n0)) / (den * 10 ^ Z.max 0 (n0 - k)), n0)%Z
  | S fuel =>
      match candidate n0 k with
      | Some r => r
      | None => shortestFrom fuel n0 (k + 1)
      end
  end.

End shortest.

(** The value of a positive finite number, significand [m] and exponent
    [e], as a fraction. *)
Definition numerator (m : positive) (e : Z) : Z := (Zpos m * 2 ^ Z.max 0 e)%Z.
Definition denominator (e : Z) : Z := (2 ^ Z.max 0 (- e))%Z.

(** [Number::toString] of a positive finite number: the shortest decimal that
    reads back as the number; of two of that length the nearer one, the
    choice of the engines where ECMAScript leaves one. Every number has such
    a decimal of no more digits than its binary notation has bits. *)
Definition finiteToString (m : positive) (e : Z) : jsstring :=
  let num := numerator m e in
  let den := denominator e in
  let '(s, n) :=
    shortestFrom m e num den
      (S (Z.to_nat (Z.log2 num + Z.log2 den))) (decimalExponent num den) 1 in
  scientific n (decimal s).

(** [Number::toString(x)], radix 10 *)
Definition ToString (x : number) : jsstring :=
  match Prim2SF x with
  | S754_nan => str "NaN"
  | S754_zero _ => str "0"
  | S754_infinity s => (if s then str "-" else []) ++ str "Infinity"
  | S754_finite s m e => (if s then str "-" else []) ++ finiteToString m e
  end.

(** [x.toFixed(fractionDigits)], for the [fractionDigits] from 0 to 100 that
    the built-in accepts: the integer [n] for which [n / 10 ^ fractionDigits]
    is nearest to [|x|], the larger of two, written with the point
    [fractionDigits] digits from its end; [toString] for NaN, the infinities
    and from [10 ^ 21] on. *)
Definition toFixed (x : number) (fractionDigits : nat) : jsstring :=
  match Prim2SF x with
  | S754_finite s m e =>
      let num := numerator m e in
      let den := denominator e in
      (if s then str "-" else [])
      ++ (if (10 ^ 21 * den <=? num)%Z then finiteToString m e
          else
            fixedNotation
              ((2 * num * 10 ^ Z.of_nat fractionDigits + den) / (2 * den))
              fractionDigits)
  | S754_zero _ => fixedNotation 0 fractionDigits
  | _ => ToString x
  end.

(** ** The summaries as the specification words them *)

(** A sum of numbers, taken from left to right as the reducers do. *)
Fixpoint sum_from (acc : number) (l : list number) : number :=
  match l with
  | [] => acc
  | a :: l' => sum_from (acc + a)%float l'
  end.

Definition sum (l : list number) : number := sum_from 0%float l.

Section Selection.
Context {Category PaymentMethod : Type}.
Variable getMonthKey : jsstring → jsstring.
Variable toLowerCase : jsstring → jsstring.

(** An expense passes the three filters. *)
Definition selected (categoryFilter : CategoryFilter Category)
    (monthFilter searchTerm : jsstring)
    (expense : Expense Category PaymentMethod) : Prop :=
  (categoryFilter = All ∨ categoryFilter = Only (category expense))
  ∧ (monthFilter = str "all" ∨ getMonthKey (date expense) = monthFilter)
  ∧ (searchTerm = []
     ∨ is_substring (toLowerCase searchTerm) (toLowerCase (description expense))).
End Selection.

(** The amounts of the expenses of one category. *)
Definition amounts_of {Category PaymentMethod : Type} `{EqDecision Category}
    (c : Category) (l : list (Expense Category PaymentMethod)) : list number :=
  amount <$> filter (λ e, category e = c) l.

Section Submission.
Context {Category PaymentMethod : Type}.
Variable parseFloat : jsstring → number.

(** A submission the form turns down: the description is empty or white
    space only, or the amount does not parse as a number, or the parsed
    amount is at most zero. *)
Definition turnedDown (form : Form.t Category PaymentMethod) : Prop :=
  blank (Form.description form)
  ∨ PrimFloat.is_nan (parseFloat (Form.amount form)) = true
  ∨ (parseFloat (Form.amount form) <=? 0)%float = true.

(** An accepted submission: one that is not turned down. *)
Definition accepted (form : Form.t Category PaymentMethod) : Prop :=
  ¬ blank (Form.description form)
  ∧ PrimFloat.is_nan (parseFloat (Form.amount form)) = false
  ∧ (parseFloat (Form.amount form) <=? 0)%float = false.
End Submission.

(** The mathematical value of a finite number. *)
Definition mathematicalValue (x : number) : Q :=
  match Prim2SF x with
  | S754_finite s m e => ((if s then -1 else 1) * inject_Z (Zpos m) * 2 ^ e)%Q
  | _ => 0%Q
  end.

(** [n] hundredths are [q] rounded to two decimal places: no multiple of
    1/100 is nearer to [q], and of two that are as near it is the larger. *)
Definition nearestHundredths (q : Q) (n : Z) : Prop :=
  (inject_Z n - (1 # 2) <= 100 * q)%Q ∧ (100 * q < inject_Z n + (1 # 2))%Q.

(** The number of a natural number below 2^63, exact below 2^53. *)
Definition ofInteger (n : Z) : number := PrimFloat.of_uint63 (Uint63.of_Z n).

(** [y] is the positive number [x] rounded to two decimal places: the Number
    value for the hundredths nearest to [x], which is their quotient by 100
    in binary64 arithmetic as long as their number is below 2^53; an infinity
    has no decimal places and stays as it is. *)
Definition roundedToTwoDecimals (x y : number) : Prop :=
  match Prim2SF x with
  | S754_finite _ _ _ =>
      ∃ n : Z,
        nearestHundredths (mathematicalValue x) n
        ∧ y = NumberValue n 100
        ∧ ((n < 2 ^ 53)%Z → y = (ofInteger n / 100)%float)
  | _ => y = x
  end.

(** The value of a sequence of decimal digits, continuing [acc]. *)
Fixpoint valueFrom (acc : Z) (ds : jsstring) : Z :=
  match ds with
  | [] => acc
  | c :: ds => valueFrom (10 * acc + (Z.of_N c - 48)) ds
  end.

(** A decimal digit, as a code unit. *)
Definition isDigitUnit (c : N) : Prop := (48 <= c <= 57)%N.

(** A code unit of a number in decimal notation: a digit, a sign, the
    point or the exponent indicator. *)
Definition plain (c : N) : Prop := (43 <= c <= 57)%N ∨ c = 101%N.

(** The elements of a list in the order of their first occurrences. *)
Fixpoint firstOccurrences {A : Type} `{EqDecision A} (l : list A) : list A :=
  match l with
  | [] => []
  | x :: l' => x :: filter (λ y, y ≠ x) (firstOccurrences l')
  end.

(** ** A concrete dashboard

    An instance to run the dashboard on: categories and payment methods are
    their names, and the functions the dashboard takes from elsewhere are
    given on the inputs of the examples. *)

Module Demo.

Definition Category := jsstring.
Definition PaymentMethod := jsstring.

(** A month key: the prefix [YYYY-MM] of an ISO date [YYYY-MM-DD]. *)
Definition getMonthKey (date : jsstring) : jsstring := take 7 date.

(** [toLowerCase] on ASCII text: the letters A to Z are lowered, any other
    code unit is kept. *)
Definition toLowerCase (s : jsstring) : jsstring :=
  (λ c, if (65 <=? c)%N && (c <=? 90)%N then (c + 32)%N else c) <$> s.

Definition expense (id description : string) (amount : number)
    (category date : string) : Expense Category PaymentMethod :=
  mkExpense (str id) (str description) amount (str category) (str "Card")
    (str date) None.

Definition filtered :=
  filteredExpenses (Category := jsstring) (PaymentMethod := jsstring)
    getMonthKey toLowerCase.

(** Three expenses of two categories, in May 2024. *)
Definition may : list (Expense Category PaymentMethod) :=
  [ expense "1" "Lunch" 0.2%float "Food" "2024-05-01";
    expense "2" "Bus" 0.1%float "Transport" "2024-05-02";
    expense "3" "Dinner" 0.3%float "Food" "2024-05-03" ].

(** Decimal notation. [parseFloat], [toFixed] and [ToNumber] are given for
    plain decimal notation ([12], [12.5], [-0.75]: no exponent part, at most
    fifteen digits, finite values below 10^21), where a quotient of two
    exactly represented integers is the correctly rounded value of the
    notation. *)

Definition digit (c : N) : option Z :=
  if (48 <=? c)%N && (c <=? 57)%N then Some (Z.of_N (c - 48)) else None.

(** The digits in front of [s], continuing the value [acc]: the value, the
    number of digits read and the rest of [s]. *)
Fixpoint digits (s : jsstring) (acc : Z) (n : nat) : Z * nat * jsstring :=
  match s with
  | c :: s' =>
      match digit c with
      | Some d => digits s' (10 * acc + d)%Z (S n)
      | None => (acc, n, s)
      end
  | [] => (acc, n, [])
  end.

Definition of_Z (z : Z) : number := PrimFloat.of_uint63 (Uint63.of_Z z).

Definition parseFloat (s : jsstring) : number :=
  let s := trimStart s in
  let '(negative, s) :=
    match s with
    | 45%N :: s' => (true, s')
    | 43%N :: s' => (false, s')
    | _ => (false, s)
    end in
  let '(i, ni, s) := digits s 0 0 in
  let '(m, nf, _) :=
    match s with
    | 46%N :: s' => digits s' i 0
    | _ => (i, 0%nat, s)
    end in
  if (ni + nf =? 0)%nat then nan
  else
    let v := (of_Z m / of_Z (10 ^ Z.of_nat nf))%float in
    if negative then (- v)%float else v.

Definition ToNumber (s : jsstring) : number := parseFloat s.

(** The sign of a finite [x] and the integer nearest to [|x| * 10 ^ f], the
    larger one of two. *)
Definition scaled (x : number) (f : nat) : option (bool * Z) :=
  match Prim2SF x with
  | S754_zero _ => Some (false, 0%Z)
  | S754_finite s m e =>
      let n := (Zpos m * 10 ^ Z.of_nat f)%Z in
      Some (s, if (0 <=? e)%Z then (n * 2 ^ e)%Z
               else ((2 * n + 2 ^ (- e)) / 2 ^ (1 - e))%Z)
  | _ => None
  end.

Fixpoint units (d : Decimal.uint) : jsstring :=
  match d with
  | Decimal.Nil => []
  | Decimal.D0 d => 48%N :: units d
  | Decimal.D1 d => 49%N :: units d
  | Decimal.D2 d => 50%N :: units d
  | Decimal.D3 d => 51%N :: units d
  | Decimal.D4 d => 52%N :: units d
  | Decimal.D5 d => 53%N :: units d
  | Decimal.D6 d => 54%N :: units d
  | Decimal.D7 d => 55%N :: units d
  | Decimal.D8 d => 56%N :: units d
  | Decimal.D9 d => 57%N :: units d
  end.

(** The decimal digits of a natural number. *)
Definition decimal (z : Z) : jsstring := units (N.to_uint (Z.to_N z)).

Definition toFixed (x : number) (f : nat) : jsstring :=
  match scaled x f with
  | Some (s, n) =>
      let p := (10 ^ Z.of_nat f)%Z in
      (if s then str "-" else [])
      ++ decimal (n / p)
      ++ (if (f =? 0)%nat then [] else str "." ++ drop 1 (decimal (p + n mod p)))
  | None =>
      if PrimFloat.is_nan x then str "NaN"
      else if (x <? 0)%float then str "-Infinity" else str "Infinity"
  end.

Definition todayIso : jsstring := str "2024-05-20".

(** A store that numbers its expenses and whose demo data are [may]. *)
Definition newId (items : list (Expense Category PaymentMethod)) : jsstring :=
  decimal (Z.of_nat (length items) + 1).

#[global] Instance demoStore : ExpenseStore jsstring jsstring LocalStore :=
  localExpenseStore newId may.

(** The dashboard of a first session, with a form filled in. *)
Definition dashboard (form : Form.t jsstring jsstring)
    : State jsstring jsstring LocalStore :=
  {| store := openStore may None;
     form := form;
     categoryFilter := All;
     monthFilter := getMonthKey todayIso;
     searchTerm := [] |}.

Definition handleSubmit
    : State jsstring jsstring LocalStore → State jsstring jsstring LocalStore :=
  handleSubmit parseFloat toFixed ToNumber todayIso (str "Food") (str "Card").


(** Two categories with the same sum, and a third one. *)
Definition tied : list (Expense Category PaymentMethod) :=
  [ expense "1" "Snack" 2%float "Fun" "2024-05-01";
    expense "2" "Lunch" 5%float "Food" "2024-05-02";
    expense "3" "Bus" 5%float "Transport" "2024-05-02" ].

Definition filled (description amount notes : string)
    : Form.t Category PaymentMethod :=
  {| Form.description := str description;
     Form.amount := str amount;
     Form.category := str "Food";
     Form.paymentMethod := str "Card";
     Form.date := str "2024-05-03";
     Form.notes := str notes |}.

End Demo.

(** * Properties *)

(** ** Strings *)

Lemma startsWith_prefix (s t : jsstring) :
  startsWith s t = true ↔ ∃ post, s = t ++ post.
Proof.
  revert s; induction t as [|b t IH]; intros s; simpl.
  - split; [intros _; by exists s | done].
  - destruct s as [|a s].
    + split; [done | intros [post Hp]; discriminate Hp].
    + rewrite andb_true_iff, N.eqb_eq, IH. split.
      * intros [-> [post ->]]. by exists post.
      * intros [post Hp]. injection Hp as -> ->. eauto.
Qed.

Lemma includes_substring (s t : jsstring) :
  includes s t = true ↔ is_substring t s.
Proof.
  unfold is_substring. induction s as [|a s IH]; simpl.
  - rewrite orb_false_r, startsWith_prefix. split.
    + intros [post Hp]. by exists [], post.
    + intros ([|x pre] & post & Hp); [eauto | discriminate Hp].
  - rewrite orb_true_iff, startsWith_prefix, IH. split.
    + intros [[post Hp] | (pre & post & Hp)].
      * by exists [], post.
      * exists (a :: pre), post. by rewrite Hp.
    + intros ([|x pre] & post & Hp).
      * left. by exists post.
      * right. injection Hp as -> ->. eauto.
Qed.

Lemma truthy_nonempty (s : jsstring) : truthy s = true ↔ s ≠ [].
Proof. by destruct s. Qed.

Lemma trimStart_nil_blank (s : jsstring) : trimStart s = [] ↔ blank s.
Proof.
  unfold blank. induction s as [|c s IH]; simpl.
  - split; [constructor | done].
  - destruct (isWhiteSpace c) eqn:Hc.
    + rewrite IH. split; [by constructor | by inversion 1].
    + split; [done | inversion 1; congruence].
Qed.

Lemma trimStart_suffix (s : jsstring) : ∃ pre, s = pre ++ trimStart s ∧ blank pre.
Proof.
  induction s as [|c s (pre & Hs & Hpre)]; simpl.
  - exists []. split; [done | constructor].
  - destruct (isWhiteSpace c) eqn:Hc.
    + exists (c :: pre). split; [by rewrite Hs at 1 | by constructor].
    + exists []. split; [done | constructor].
Qed.

Lemma blank_app (s t : jsstring) : blank (s ++ t) ↔ blank s ∧ blank t.
Proof. apply Forall_app. Qed.

Lemma blank_reverse (s : jsstring) : blank (reverse s) ↔ blank s.
Proof. unfold blank. by rewrite !Forall_forall; setoid_rewrite elem_of_reverse. Qed.

(** [!s.trim()] holds exactly of the strings of white space only. *)
Lemma trim_nil_blank (s : jsstring) : trim s = [] ↔ blank s.
Proof.
  unfold trim, trimEnd. split.
  - intros Ht. apply (f_equal reverse) in Ht. rewrite reverse_involutive in Ht.
    change (reverse []) with (@nil N) in Ht.
    apply trimStart_nil_blank in Ht. apply (proj1 (blank_reverse _)) in Ht.
    destruct (trimStart_suffix s) as (pre & Hs & Hpre).
    rewrite Hs. apply blank_app. by split.
  - intros Hb. apply trimStart_nil_blank in Hb. by rewrite Hb.
Qed.

(** ** Numbers

    The order of binary64 values and the sign of a difference, from the
    specification of the primitive operations ([SpecFloat], [FloatAxioms]). *)

Section SpecOrder.
Variables prec emax : Z.
Hypothesis prec_pos : (0 < prec)%Z.
Local Open Scope Z_scope.

Local Abbreviation emin := (SpecFloat.emin prec emax).
Local Abbreviation fexp := (SpecFloat.fexp prec emax).

Lemma digits2_pos_bounds (m : positive) :
  2 ^ (Zpos (digits2_pos m) - 1) <= Zpos m < 2 ^ Zpos (digits2_pos m).
Proof.
  induction m as [m IH|m IH|]; simpl digits2_pos.
  - rewrite Pos2Z.inj_succ.
    replace (Z.succ (Zpos (digits2_pos m)) - 1) with (Z.succ (Zpos (digits2_pos m) - 1)) by lia.
    rewrite !Z.pow_succ_r by lia. lia.
  - rewrite Pos2Z.inj_succ.
    replace (Z.succ (Zpos (digits2_pos m)) - 1) with (Z.succ (Zpos (digits2_pos m) - 1)) by lia.
    rewrite !Z.pow_succ_r by lia. lia.
  - simpl. lia.
Qed.

Lemma shr_1_m (r : shr_record) : 0 <= shr_m r → shr_m (shr_1 r) = shr_m r / 2.
Proof.
  destruct r as [[|[p|p|]|p] r s]; simpl; intros Hm; try lia.
  - done.
  - rewrite Pos2Z.inj_xI. apply Z.div_unique with 1; lia.
  - rewrite Pos2Z.inj_xO. apply Z.div_unique with 0; lia.
  - done.
Qed.

Lemma iter_shr_1_m (p : positive) (r : shr_record) :
  0 <= shr_m r → shr_m (SpecFloat.iter_pos shr_1 p r) = shr_m r / 2 ^ Zpos p.
Proof.
  revert r. induction p as [p IH|p IH|]; intros r Hm; simpl SpecFloat.iter_pos.
  - assert (0 <= shr_m (shr_1 r)) by (rewrite shr_1_m by done; apply Z.div_pos; lia).
    assert (0 <= shr_m (SpecFloat.iter_pos shr_1 p (shr_1 r))).
    { rewrite IH by done. apply Z.div_pos; [done|]. apply Z.pow_pos_nonneg; lia. }
    rewrite !IH, shr_1_m by done.
    rewrite !Z.div_div by (try apply Z.pow_pos_nonneg; lia).
    f_equal. rewrite <- !Z.pow_add_r by lia. change 2 with (2 ^ 1) at 1.
    rewrite <- Z.pow_add_r by lia. f_equal. lia.
  - assert (0 <= shr_m (SpecFloat.iter_pos shr_1 p r)).
    { rewrite IH by done. apply Z.div_pos; [done|]. apply Z.pow_pos_nonneg; lia. }
    rewrite !IH by done.
    rewrite !Z.div_div by (try apply Z.pow_pos_nonneg; lia).
    f_equal. rewrite <- Z.pow_add_r by lia. f_equal. lia.
  - by rewrite shr_1_m.
Qed.

Lemma shr_record_of_loc_m (m : Z) (l : location) : shr_m (shr_record_of_loc m l) = m.
Proof. by destruct l as [|[]]. Qed.

Lemma fexp_emin (e : Z) : emin <= fexp e.
Proof. unfold SpecFloat.fexp. lia. Qed.

Lemma shr_fexp_pos (m e : Z) (l : location) :
  0 < m → emin <= e →
  0 < shr_m (fst (shr_fexp prec emax m e l)) ∧ emin <= snd (shr_fexp prec emax m e l).
Proof.
  intros Hm He. unfold shr_fexp, shr.
  destruct m as [|p|p]; try lia. simpl Zdigits2.
  pose proof (digits2_pos_bounds p) as [Hlo _].
  pose proof (fexp_emin (Zpos (digits2_pos p) + e)) as Hf.
  destruct (fexp (Zpos (digits2_pos p) + e) - e) as [|q|q] eqn:Hn; simpl.
  - by rewrite shr_record_of_loc_m.
  - rewrite iter_shr_1_m, shr_record_of_loc_m by (rewrite shr_record_of_loc_m; lia).
    split; [|lia].
    apply Z.div_str_pos. split; [apply Z.pow_pos_nonneg; lia|].
    etransitivity; [|exact Hlo].
    apply Z.pow_le_mono_r; [lia|]. unfold SpecFloat.fexp in Hn. lia.
  - by rewrite shr_record_of_loc_m.
Qed.

Lemma round_nearest_even_pos (m : Z) (l : location) :
  0 < m → 0 < round_nearest_even m l.
Proof. intros Hm. destruct l as [|[]]; simpl; try destruct (Z.even m); lia. Qed.

Lemma binary_round_aux_signed (sx : bool) (m e : Z) (l : location) :
  0 < m → emin <= e → signed sx (binary_round_aux prec emax sx m e l).
Proof.
  intros Hm He. unfold binary_round_aux.
  destruct (shr_fexp_pos m e l Hm He) as [Hm1 He1].
  destruct (shr_fexp prec emax m e l) as [r1 e1]. simpl in Hm1, He1.
  pose proof (round_nearest_even_pos _ (loc_of_shr_record r1) Hm1) as Hm2.
  destruct (shr_fexp_pos _ e1 loc_Exact Hm2 He1) as [Hm3 _].
  destruct (shr_fexp prec emax _ e1 loc_Exact) as [r2 e2]. simpl in Hm3.
  destruct (shr_m r2) as [|p|p]; try lia.
  by destruct (e2 <=? emax - prec).
Qed.

Lemma binary_round_signed (sx : bool) (mx : positive) (ex : Z) :
  emin <= ex → signed sx (binary_round prec emax sx mx ex).
Proof.
  intros He. unfold binary_round, shl_align.
  pose proof (fexp_emin (Zpos (digits2_pos mx) + ex)) as Hf.
  destruct (fexp (Zpos (digits2_pos mx) + ex) - ex);
    apply binary_round_aux_signed; lia.
Qed.

(** The sign of a rounded integer multiple of [2 ^ e], read against zero. *)
Lemma binary_normalize_sign (m e : Z) :
  emin <= e →
  SFltb (S754_zero false) (binary_normalize prec emax m e false) = (0 <? m).
Proof.
  intros He. destruct m as [|p|p]; simpl.
  - done.
  - pose proof (binary_round_signed false p e He) as Hs.
    by destruct (binary_round prec emax false p e) as [| | |[] ? ?]; simpl in Hs; subst.
  - pose proof (binary_round_signed true p e He) as Hs.
    by destruct (binary_round prec emax true p e) as [| | |[] ? ?]; simpl in Hs; subst.
Qed.

Lemma canonical_emin (m : positive) (e : Z) :
  canonical_mantissa prec emax m e = true → emin <= e.
Proof.
  unfold canonical_mantissa. intros He%Z.eqb_eq.
  pose proof (fexp_emin (Zpos (digits2_pos m) + e)). lia.
Qed.

Lemma iter_xO_value (m d : positive) : Zpos (Pos.iter xO m d) = Zpos m * 2 ^ Zpos d.
Proof.
  induction d as [|d IH] using Pos.peano_ind.
  - simpl. lia.
  - rewrite Pos.iter_succ, Pos2Z.inj_xO, IH, Pos2Z.inj_succ, Z.pow_succ_r by lia. ring.
Qed.

Lemma shl_align_value (mx : positive) (ex ez : Z) :
  ez <= ex → Zpos (fst (shl_align mx ex ez)) = Zpos mx * 2 ^ (ex - ez).
Proof.
  intros He. unfold shl_align.
  destruct (ez - ex) as [|d|d] eqn:Hd; cbn [fst]; try lia.
  - replace (ex - ez) with 0 by lia. rewrite Z.pow_0_r. lia.
  - rewrite iter_xO_value. f_equal. f_equal. lia.
Qed.

(** Canonical mantissas compare as their exponents, then themselves. *)
Lemma compare_aligned (mx my : positive) (ex ey : Z) :
  canonical_mantissa prec emax mx ex = true →
  canonical_mantissa prec emax my ey = true →
  (Zpos (fst (shl_align mx ex (Z.min ex ey)))
   ?= Zpos (fst (shl_align my ey (Z.min ex ey))))
  = match ex ?= ey with
    | Lt => Lt
    | Gt => Gt
    | Eq => Pos.compare_cont Eq mx my
    end.
Proof.
  unfold canonical_mantissa. intros Hx%Z.eqb_eq Hy%Z.eqb_eq.
  rewrite !shl_align_value by lia.
  pose proof (digits2_pos_bounds mx) as [Hxl Hxu].
  pose proof (digits2_pos_bounds my) as [Hyl Hyu].
  unfold SpecFloat.fexp in Hx, Hy.
  destruct (Z.compare_spec ex ey) as [->|Hlt|Hgt].
  - rewrite Z.min_id, Z.sub_diag. simpl. by rewrite !Pos.mul_1_r.
  - rewrite Z.min_l by lia. rewrite Z.sub_diag, Z.mul_1_r.
    apply Z.compare_lt_iff.
    assert (Zpos (digits2_pos my) = prec) as Hdy by lia.
    assert (Zpos (digits2_pos mx) <= prec) as Hdx by lia.
    assert (2 ^ Zpos (digits2_pos mx) <= 2 ^ prec) by (apply Z.pow_le_mono_r; lia).
    assert (2 ^ 1 <= 2 ^ (ey - ex)) by (apply Z.pow_le_mono_r; lia).
    assert (2 ^ prec = 2 ^ (prec - 1) * 2 ^ 1) as Hp
      by (rewrite <- Z.pow_add_r by lia; f_equal; lia).
    rewrite Hdy in Hyl. nia.
  - rewrite Z.min_r by lia. rewrite Z.sub_diag, Z.mul_1_r.
    apply Z.compare_gt_iff.
    assert (Zpos (digits2_pos mx) = prec) as Hdx by lia.
    assert (Zpos (digits2_pos my) <= prec) as Hdy by lia.
    assert (2 ^ Zpos (digits2_pos my) <= 2 ^ prec) by (apply Z.pow_le_mono_r; lia).
    assert (2 ^ 1 <= 2 ^ (ex - ey)) by (apply Z.pow_le_mono_r; lia).
    assert (2 ^ prec = 2 ^ (prec - 1) * 2 ^ 1) as Hp
      by (rewrite <- Z.pow_add_r by lia; f_equal; lia).
    rewrite Hdx in Hxl. nia.
Qed.

Lemma valid_canonical (s : bool) (m : positive) (e : Z) :
  SpecFloat.valid_binary prec emax (S754_finite s m e) = true →
  canonical_mantissa prec emax m e = true.
Proof. simpl. unfold bounded. by intros [? _]%andb_true_iff. Qed.

(** A difference is positive exactly when its second operand is the smaller
    one: the rounding of an exact non-zero difference is never zero. *)
Lemma SFsub_sign (x y : spec_float) :
  SpecFloat.valid_binary prec emax x = true → SpecFloat.valid_binary prec emax y = true →
  x ≠ S754_nan → y ≠ S754_nan →
  SFltb (S754_zero false) (SFsub prec emax y x) = SFltb x y.
Proof.
  intros Vx Vy Nx Ny.
  destruct x as [sx|sx| |sx mx ex], y as [sy|sy| |sy my ey]; try done;
    try (by destruct sx, sy).
  apply valid_canonical in Vx, Vy.
  unfold SFsub. rewrite binary_normalize_sign
    by (pose proof (canonical_emin _ _ Vx); pose proof (canonical_emin _ _ Vy); lia).
  pose proof (compare_aligned mx my ex ey Vx Vy) as Hc.
  rewrite (Z.min_comm ey ex).
  set (X := Zpos (fst (shl_align mx ex (Z.min ex ey)))) in *.
  set (Y := Zpos (fst (shl_align my ey (Z.min ex ey)))) in *.
  assert (0 < X ∧ 0 < Y) as [HX HY] by (subst X Y; lia).
  unfold SFltb, SFcompare.
  destruct (Z.compare_spec X Y) as [HXY|HXY|HXY];
    destruct (ex ?= ey), (Pos.compare_cont Eq mx my); try discriminate Hc;
    destruct sx, sy; cbn [cond_Zopp CompOpp];
    first [ apply Z.ltb_lt; lia | apply Z.ltb_ge; lia ].
Qed.

Lemma SFcompare_refl (x : spec_float) : x ≠ S754_nan → SFcompare x x = Some Eq.
Proof.
  intros Nx. destruct x as [s|s| |s m e]; try done; simpl.
  - by destruct s.
  - rewrite Z.compare_refl.
    change (Pos.compare_cont Eq m m) with (m ?= m)%positive.
    rewrite Pos.compare_refl. by destruct s.
Qed.

Lemma SFcompare_antisym (x y : spec_float) :
  SFcompare y x = option_map CompOpp (SFcompare x y).
Proof.
  destruct x as [sx|sx| |sx mx ex], y as [sy|sy| |sy my ey]; try done;
    try (by destruct sx, sy); try (by destruct sx); try (by destruct sy).
  simpl. rewrite (Z.compare_antisym ex ey).
  change (Pos.compare_cont Eq my mx) with (my ?= mx)%positive.
  change (Pos.compare_cont Eq mx my) with (mx ?= my)%positive.
  rewrite (Pos.compare_antisym mx my).
  by destruct sx, sy, (ex ?= ey), (mx ?= my)%positive.
Qed.

Lemma SFleb_refl (x : spec_float) : x ≠ S754_nan → SFleb x x = true.
Proof. intros Nx. unfold SFleb. by rewrite SFcompare_refl. Qed.

Lemma SFltb_leb (x y : spec_float) : SFltb x y = true → SFleb x y = true.
Proof. unfold SFltb, SFleb. by destruct (SFcompare x y) as [[]|]. Qed.

Lemma SFltb_false_leb (x y : spec_float) :
  x ≠ S754_nan → y ≠ S754_nan → SFltb x y = false → SFleb y x = true.
Proof.
  intros Nx Ny. unfold SFltb, SFleb. rewrite (SFcompare_antisym x y).
  destruct (SFcompare x y) as [[]|] eqn:Hc; try done.
  by destruct x, y.
Qed.

Lemma SFleb_trans (x y z : spec_float) :
  SFleb x y = true → SFleb y z = true → SFleb x z = true.
Proof.
  unfold SFleb.
  destruct x as [sx|sx| |sx mx ex], y as [sy|sy| |sy my ey], z as [sz|sz| |sz mz ez];
    try done; try (by destruct sx, sy, sz); try (by destruct sx, sy);
    try (by destruct sx, sz); try (by destruct sy, sz).
  simpl.
  change (Pos.compare_cont Eq mx my) with (mx ?= my)%positive.
  change (Pos.compare_cont Eq my mz) with (my ?= mz)%positive.
  change (Pos.compare_cont Eq mx mz) with (mx ?= mz)%positive.
  destruct sx, sy, sz; try done;
    destruct (Z.compare_spec ex ey), (Z.compare_spec ey ez), (Z.compare_spec ex ez);
    try done; try lia;
    destruct (Pos.compare_spec mx my), (Pos.compare_spec my mz), (Pos.compare_spec mx mz);
    try done; try lia.
Qed.
Lemma binary_normalize_not_nan (m e : Z) :
  SpecFloat.emin prec emax <= e → binary_normalize prec emax m e false ≠ S754_nan.
Proof.
  intros He. destruct m as [|p|p]; simpl; [done| |].
  - pose proof (binary_round_signed false p e He) as Hs.
    by destruct (binary_round prec emax false p e).
  - pose proof (binary_round_signed true p e He) as Hs.
    by destruct (binary_round prec emax true p e).
Qed.

(** Adding a finite number never yields NaN. *)
Lemma SFadd_finite_not_nan (x y : spec_float) :
  SpecFloat.valid_binary prec emax x = true →
  SpecFloat.valid_binary prec emax y = true →
  x ≠ S754_nan →
  match y with S754_zero _ | S754_finite _ _ _ => True | _ => False end →
  SFadd prec emax x y ≠ S754_nan.
Proof.
  intros Vx Vy Nx Fy.
  destruct x as [sx|sx| |sx mx ex], y as [sy|sy| |sy my ey]; try done;
    try (by destruct sx, sy).
  apply valid_canonical in Vx, Vy.
  unfold SFadd. apply binary_normalize_not_nan.
  pose proof (canonical_emin _ _ Vx). pose proof (canonical_emin _ _ Vy). lia.
Qed.
End SpecOrder.

(** *** Binary64 *)

Section Binary64.
Local Open Scope float_scope.

Lemma is_nan_spec (x : float) : is_nan x = true ↔ Prim2SF x = S754_nan.
Proof.
  unfold is_nan. rewrite FloatAxioms.eqb_spec. unfold SFeqb.
  destruct (Prim2SF x) as [s|s| |s m e] eqn:Hx.
  - done.
  - by destruct s.
  - done.
  - rewrite SFcompare_refl by done. done.
Qed.

Lemma not_nan_spec (x : float) : is_nan x = false → Prim2SF x ≠ S754_nan.
Proof. intros Hx Hn%is_nan_spec. congruence. Qed.

(** [b - a > 0] is [a < b], unless one of them is NaN. *)
Lemma sub_pos_ltb (a b : float) :
  is_nan a = false → is_nan b = false → (0 <? b - a) = (a <? b).
Proof.
  intros Ha%not_nan_spec Hb%not_nan_spec.
  rewrite !FloatAxioms.ltb_spec, FloatAxioms.sub_spec.
  change (Prim2SF 0) with (S754_zero false).
  apply SFsub_sign; auto using Prim2SF_valid. done.
Qed.

Lemma leb_refl (a : float) : is_nan a = false → (a <=? a) = true.
Proof. intros Ha%not_nan_spec. rewrite FloatAxioms.leb_spec. by apply SFleb_refl. Qed.

Lemma ltb_leb (a b : float) : (a <? b) = true → (a <=? b) = true.
Proof. rewrite FloatAxioms.ltb_spec, FloatAxioms.leb_spec. apply SFltb_leb. Qed.

Lemma ltb_false_leb (a b : float) :
  is_nan a = false → is_nan b = false → (a <? b) = false → (b <=? a) = true.
Proof.
  intros Ha%not_nan_spec Hb%not_nan_spec. rewrite FloatAxioms.ltb_spec, FloatAxioms.leb_spec.
  by apply SFltb_false_leb.
Qed.

Lemma leb_trans (a b c : float) :
  (a <=? b) = true → (b <=? c) = true → (a <=? c) = true.
Proof. rewrite !FloatAxioms.leb_spec. apply SFleb_trans. Qed.

Lemma leb_false_ltb (a b : float) :
  is_nan a = false → is_nan b = false → (a <=? b) = false → (b <? a) = true.
Proof.
  intros Ha%not_nan_spec Hb%not_nan_spec. rewrite FloatAxioms.ltb_spec, FloatAxioms.leb_spec.
  unfold SFleb, SFltb. rewrite (SFcompare_antisym (Prim2SF a) (Prim2SF b)).
  destruct (SFcompare (Prim2SF a) (Prim2SF b)) as [[]|] eqn:Hc; try done.
  by destruct (Prim2SF a), (Prim2SF b).
Qed.

Lemma is_finite_spec (x : float) :
  is_finite x = true →
  match Prim2SF x with S754_zero _ | S754_finite _ _ _ => True | _ => False end.
Proof.
  unfold is_finite, is_infinity. rewrite negb_true_iff, orb_false_iff.
  intros [Hn Hi]. apply not_nan_spec in Hn.
  rewrite FloatAxioms.eqb_spec, abs_spec in Hi.
  change (Prim2SF infinity) with (S754_infinity false) in Hi.
  by destruct (Prim2SF x) as [s|s| |s m e].
Qed.

Lemma add_finite_not_nan (a b : float) :
  is_nan a = false → is_finite b = true → is_nan (a + b) = false.
Proof.
  intros Ha%not_nan_spec Hb%is_finite_spec.
  destruct (is_nan (a + b)) eqn:Hn; [|done].
  apply is_nan_spec in Hn. rewrite add_spec in Hn.
  by apply SFadd_finite_not_nan in Hn; auto using Prim2SF_valid.
Qed.

Lemma sum_from_not_nan (acc : number) (l : list number) :
  is_nan acc = false → Forall (λ a, is_finite a = true) l →
  is_nan (sum_from acc l) = false.
Proof.
  intros Hacc Hl. revert acc Hacc.
  induction Hl as [|a l Ha Hl IH]; intros acc Hacc; simpl; [done|].
  by apply IH, add_finite_not_nan.
Qed.
(** The number of a positive length is positive. *)
Lemma of_length_pos (n : nat) :
  (0 < n)%nat → (Z.of_nat n < 2 ^ 63)%Z → (0 <? of_length n) = true.
Proof.
  intros Hn Hb. unfold of_length.
  rewrite FloatAxioms.ltb_spec, of_uint63_spec.
  change (Prim2SF 0) with (S754_zero false).
  rewrite binary_normalize_sign by done.
  apply Z.ltb_lt. rewrite Uint63.of_Z_spec, Z.mod_small; [lia|].
  change Uint63.wB with (2 ^ 63)%Z. lia.
Qed.

Lemma ltb_eqb_false (a b : float) : (a <? b) = true → (b =? a) = false.
Proof.
  rewrite FloatAxioms.ltb_spec, FloatAxioms.eqb_spec. unfold SFltb, SFeqb.
  rewrite (SFcompare_antisym (Prim2SF a) (Prim2SF b)).
  by destruct (SFcompare (Prim2SF a) (Prim2SF b)) as [[]|].
Qed.

End Binary64.

(** ** The filtered list and the sums *)

Section Summaries.
Context {Category PaymentMethod : Type} `{EqDecision Category}.
Variable getMonthKey : jsstring → jsstring.
Variable toLowerCase : jsstring → jsstring.

Local Abbreviation Expense := (Expense Category PaymentMethod).
Local Abbreviation CategoryFilter := (CategoryFilter Category).
Local Abbreviation filtered_by := (filteredExpenses getMonthKey toLowerCase).
Local Abbreviation selected := (selected getMonthKey toLowerCase).

Implicit Types (expenses : list Expense) (categoryFilter : CategoryFilter).
Implicit Types (monthFilter searchTerm : jsstring).

Lemma matchesFilters_selected categoryFilter monthFilter searchTerm (e : Expense) :
  matchesFilters getMonthKey toLowerCase categoryFilter monthFilter searchTerm e = true
  ↔ selected categoryFilter monthFilter searchTerm e.
Proof.
  unfold matchesFilters, selected.
  rewrite !andb_true_iff, !orb_true_iff, !bool_decide_eq_true, negb_true_iff.
  rewrite includes_substring.
  assert (truthy searchTerm = false ↔ searchTerm = []) as -> by by destruct searchTerm.
  destruct categoryFilter as [|c].
  - intuition auto.
  - rewrite bool_decide_eq_true. intuition (try discriminate); try congruence.
Qed.

(** C1: the filtered list is the sub-list, in the original order, of exactly
    the expenses that pass the category filter ("All" or the same category),
    the month filter ("all" or the same month key) and the search (empty
    term, or the lower-cased term occurs in the lower-cased description). *)
Theorem filteredExpenses_exact expenses categoryFilter monthFilter searchTerm
    (dec : ∀ e, Decision (selected categoryFilter monthFilter searchTerm e)) :
  filtered_by expenses categoryFilter monthFilter searchTerm
  = filter (selected categoryFilter monthFilter searchTerm) expenses.
Proof.
  unfold filteredExpenses.
  induction expenses as [|e expenses IH]; [done|].
  simpl. rewrite filter_cons, IH.
  destruct (decide (selected categoryFilter monthFilter searchTerm e)) as [Hs|Hs].
  - apply matchesFilters_selected in Hs. by rewrite Hs.
  - destruct (matchesFilters _ _ _ _ _ e) eqn:Hm; [|done].
    by apply matchesFilters_selected in Hm.
Qed.

Lemma sum_from_snoc (acc a : number) (l : list number) :
  sum_from acc (l ++ [a]) = (sum_from acc l + a)%float.
Proof. revert acc; induction l as [|b l IH]; intros acc; simpl; [done | apply IH]. Qed.

Lemma sum_snoc (a : number) (l : list number) : sum (l ++ [a]) = (sum l + a)%float.
Proof. apply sum_from_snoc. Qed.

Lemma total_sum_from (acc : number) (l : list Expense) :
  fold_left (λ sum expense, (sum + amount expense)%float) l acc
  = sum_from acc (amount <$> l).
Proof. revert acc; induction l as [|e l IH]; intros acc; simpl; [done | apply IH]. Qed.

Lemma total_sum (l : list Expense) : total l = sum (amount <$> l).
Proof. apply total_sum_from. Qed.

(** C2: the monthly total is the sum of the amounts of the filtered expenses,
    and 0 when no expense passes the filters. *)
Theorem total_filtered expenses categoryFilter monthFilter searchTerm :
  let filtered := filtered_by expenses categoryFilter monthFilter searchTerm in
  total filtered = sum (amount <$> filtered)
  ∧ (filtered = [] → total filtered = 0%float).
Proof.
  intros filtered. split; [apply total_sum|]. by intros ->.
Qed.

(** C3: the average is the total divided by the number of filtered expenses
    when there is one at least, and 0 otherwise; the divisor of a division
    that takes place (the length of an array, below 2^32) is not zero. *)
Theorem average_filtered expenses categoryFilter monthFilter searchTerm :
  let filtered := filtered_by expenses categoryFilter monthFilter searchTerm in
  (filtered = [] → average filtered = 0%float)
  ∧ (0 < length filtered →
     average filtered
     = (sum (amount <$> filtered) / of_length (length filtered))%float)
  ∧ (0 < length filtered → (Z.of_nat (length filtered) < 2 ^ 32)%Z →
     (of_length (length filtered) =? 0)%float = false).
Proof.
  intros filtered. unfold average. split; [|split].
  - by intros ->.
  - intros Hlen. rewrite total_sum. case_decide; [lia | done].
  - intros Hlen Hmax. apply ltb_eqb_false, of_length_pos; [done|].
    assert (2 ^ 32 < 2 ^ 63)%Z by done. lia.
Qed.

(** C10: the recent-activity table lists the first six filtered expenses. *)
Theorem recentExpenses_first_six expenses categoryFilter monthFilter searchTerm :
  let filtered := filtered_by expenses categoryFilter monthFilter searchTerm in
  let recent := recentExpenses filtered in
  length recent ≤ 6
  ∧ recent = take 6 filtered
  ∧ (∀ i, i < 6 → recent !! i = filtered !! i)
  ∧ (∀ e, e ∈ recent → e ∈ filtered).
Proof.
  intros filtered recent. subst recent. unfold recentExpenses.
  repeat split.
  - rewrite length_take. lia.
  - intros i Hi. by apply lookup_take_lt.
  - intros e He. apply elem_of_take in He as (i & Hi & _).
    by eapply list_elem_of_lookup_2.
Qed.

(** *** The per-category breakdown *)

Lemma get_set (k c : Category) (v : number) (acc : Rec.t Category) :
  Rec.get c (Rec.set k v acc) = if decide (k = c) then Some v else Rec.get c acc.
Proof.
  induction acc as [|[k' v'] acc IH]; simpl.
  - done.
  - destruct (decide (k' = k)) as [->|Hk]; simpl.
    + by destruct (decide (k = c)).
    + rewrite IH. destruct (decide (k' = c)) as [->|]; [|done].
      by rewrite decide_False.
Qed.

Lemma categories_snoc (l : list Expense) (e : Expense) :
  categories (l ++ [e])
  = Rec.set (category e)
      (nullish (Rec.get (category e) (categories l)) 0%float + amount e)%float
      (categories l).
Proof. unfold categories. by rewrite fold_left_app. Qed.

Lemma amounts_of_snoc (c : Category) (l : list Expense) (e : Expense) :
  amounts_of c (l ++ [e])
  = if decide (category e = c) then amounts_of c l ++ [amount e]
    else amounts_of c l.
Proof.
  unfold amounts_of. rewrite filter_app, fmap_app, filter_cons, filter_nil.
  destruct (decide (category e = c)); simpl; [done | by rewrite app_nil_r].
Qed.

Lemma breakdown_sum (l : list Expense) (c : Category) :
  breakdown l c = sum (amounts_of c l).
Proof.
  unfold breakdown. induction l as [|e l IH] using rev_ind; [done|].
  rewrite categories_snoc, get_set, amounts_of_snoc.
  destruct (decide (category e = c)) as [->|Hc]; [|done].
  by rewrite sum_snoc, <- IH.
Qed.

Lemma amounts_of_all (c : Category) (l : list Expense) :
  (∀ e, e ∈ l → category e = c) → amounts_of c l = amount <$> l.
Proof.
  intros Hall. unfold amounts_of. f_equal.
  induction l as [|e l IH]; [done|].
  rewrite filter_cons, decide_True by (apply Hall; left).
  f_equal. apply IH. intros e' He'. apply Hall. by right.
Qed.

Lemma amounts_of_none (c : Category) (l : list Expense) :
  (∀ e, e ∈ l → category e ≠ c) → amounts_of c l = [].
Proof.
  intros Hnone. unfold amounts_of.
  induction l as [|e l IH]; [done|].
  rewrite filter_cons, decide_False by (apply Hnone; left).
  apply IH. intros e' He'. apply Hnone. by right.
Qed.

(** C4, as amended: the breakdown is a group-by of the filtered expenses: the
    value of a category is the sum of the amounts of the filtered expenses of
    that category (0 when there is none), and it is the monthly total when
    every filtered expense is of that category. *)
Theorem breakdown_group_by expenses categoryFilter monthFilter searchTerm :
  let filtered := filtered_by expenses categoryFilter monthFilter searchTerm in
  (∀ c, breakdown filtered c = sum (amounts_of c filtered))
  ∧ (∀ c, (∀ e, e ∈ filtered → category e ≠ c) → breakdown filtered c = 0%float)
  ∧ (∀ c, (∀ e, e ∈ filtered → category e = c) →
          breakdown filtered c = total filtered).
Proof.
  intros filtered. split; [|split].
  - intros c. apply breakdown_sum.
  - intros c Hnone. by rewrite breakdown_sum, amounts_of_none.
  - intros c Hall. by rewrite breakdown_sum, total_sum, amounts_of_all.
Qed.

End Summaries.

(** ** The top category *)

Section Sorting.
Context {K : Type}.
Local Open Scope float_scope.

Local Abbreviation descending :=
  ((λ '(_, a) '(_, b), b - a) : K * number → K * number → number).

Lemma ltb_nan_r (a v : float) : is_nan v = true → (a <? v) = false.
Proof.
  intros Hv%is_nan_spec. rewrite FloatAxioms.ltb_spec, Hv.
  unfold SFltb. by destruct (Prim2SF a).
Qed.

(** On numbers other than NaN, the comparator of [topCategory] asks for an
    exchange exactly when the first value is the smaller one. *)
Lemma sortCompare_descending (x y : K * number) :
  is_nan x.2 = false → is_nan y.2 = false →
  (0 <? sortCompare descending x y) = (x.2 <? y.2).
Proof.
  destruct x as [kx a], y as [ky b]. simpl. intros Ha Hb.
  unfold sortCompare. rewrite <- (sub_pos_ltb a b Ha Hb).
  destruct (is_nan (b - a)) eqn:Hv; [|done].
  by rewrite (ltb_nan_r 0 _ Hv).
Qed.

Lemma head_sort_insert (cmp : K * number → K * number → number)
    (x : K * number) (l : list (K * number)) :
  head (sort_insert cmp x l)
  = Some match head l with
         | Some h => if 0 <? sortCompare cmp x h then h else x
         | None => x
         end.
Proof.
  destruct l as [|h l]; simpl; [done|].
  by destruct (0 <? sortCompare cmp x h).
Qed.

Lemma head_sort_nonempty (cmp : K * number → K * number → number)
    (l : list (K * number)) :
  l ≠ [] → ∃ top, head (sort cmp l) = Some top.
Proof.
  destruct l as [|x l]; [done|]. intros _. unfold sort. simpl.
  rewrite head_sort_insert. eauto.
Qed.

(** The first entry after the sort is one of the entries, and no entry has a
    larger value when no value is NaN. *)
Lemma head_sort_descending (l : list (K * number)) (top : K * number) :
  head (sort descending l) = Some top →
  top ∈ l
  ∧ ((∀ kv, kv ∈ l → is_nan kv.2 = false) →
     ∀ kv, kv ∈ l → (kv.2 <=? top.2) = true).
Proof.
  revert top. induction l as [|x l IH]; intros top; [done|].
  unfold sort. simpl. fold (sort descending l).
  rewrite head_sort_insert. intros [= <-].
  destruct (head (sort descending l)) as [h|] eqn:Hh.
  - destruct (IH h eq_refl) as [Hin Hmax].
    destruct (0 <? sortCompare descending x h) eqn:Hc.
    + split; [by right|]. intros Hnan kv [->|Hkv]%elem_of_cons.
      * rewrite sortCompare_descending in Hc
          by (apply Hnan; first [by left | by right]).
        by apply ltb_leb.
      * apply Hmax; [|done]. intros kv' Hkv'. apply Hnan. by right.
    + split; [left|]. intros Hnan kv Hkv.
      assert (is_nan x.2 = false) as Hx by (apply Hnan; left).
      assert (is_nan h.2 = false) as Hhn by (apply Hnan; by right).
      rewrite sortCompare_descending in Hc by done.
      apply elem_of_cons in Hkv as [->|Hkv]; [by apply leb_refl|].
      apply leb_trans with h.2; [|by apply ltb_false_leb].
      apply Hmax; [|done]. intros kv' Hkv'. apply Hnan. by right.
  - assert (l = []) as ->.
    { destruct l as [|y l]; [done|]. exfalso.
      destruct (head_sort_nonempty descending (y :: l)) as [t Ht]; [done|].
      congruence. }
    split; [left|]. intros Hnan kv ->%list_elem_of_singleton.
    apply leb_refl, Hnan. left.
Qed.

(** The model of [sort] is a sort: it permutes the array, and on values
    other than NaN it leaves the entries in descending order. *)
Lemma sort_insert_perm (cmp : K * number → K * number → number)
    (x : K * number) (l : list (K * number)) :
  sort_insert cmp x l ≡ₚ x :: l.
Proof.
  induction l as [|y l IH]; simpl; [done|].
  destruct (0 <? sortCompare cmp x y); [|done].
  rewrite IH. apply Permutation_swap.
Qed.

Lemma sort_perm (cmp : K * number → K * number → number) (l : list (K * number)) :
  sort cmp l ≡ₚ l.
Proof.
  induction l as [|x l IH]; [done|].
  unfold sort. simpl. fold (sort cmp l). by rewrite sort_insert_perm, IH.
Qed.

Lemma sort_insert_sorted (x : K * number) (l : list (K * number)) :
  is_nan x.2 = false → (∀ kv, kv ∈ l → is_nan kv.2 = false) →
  StronglySorted (λ y z, (z.2 <=? y.2) = true) l →
  StronglySorted (λ y z, (z.2 <=? y.2) = true) (sort_insert descending x l).
Proof.
  intros Hx Hl Hs. induction Hs as [|y l Hs IH Hy]; simpl.
  - repeat constructor.
  - assert (is_nan y.2 = false) as Hyn by (apply Hl; left).
    rewrite sortCompare_descending by done.
    destruct (x.2 <? y.2) eqn:Hc; rewrite ?Hc.
    + constructor.
      * apply IH. intros kv Hkv. apply Hl. by right.
      * apply Forall_forall. intros z Hz.
        rewrite sort_insert_perm in Hz. apply elem_of_cons in Hz as [->|Hz].
        -- by apply ltb_leb.
        -- by apply (proj1 (Forall_forall _ _) Hy).
    + constructor; [by constructor|].
      constructor; [by apply ltb_false_leb|].
      apply Forall_forall. intros z Hz.
      apply leb_trans with y.2; [|by apply ltb_false_leb].
      by apply (proj1 (Forall_forall _ _) Hy).
Qed.

Lemma sort_descending_sorted (l : list (K * number)) :
  (∀ kv, kv ∈ l → is_nan kv.2 = false) →
  StronglySorted (λ y z, (z.2 <=? y.2) = true) (sort descending l).
Proof.
  induction l as [|x l IH]; intros Hl; [constructor|].
  unfold sort. simpl. fold (sort descending l).
  apply sort_insert_sorted.
  - apply Hl. left.
  - intros kv Hkv. rewrite sort_perm in Hkv. apply Hl. by right.
  - apply IH. intros kv Hkv. apply Hl. by right.
Qed.

End Sorting.

Section TopCategory.
Context {Category PaymentMethod : Type} `{EqDecision Category}.
Variable getMonthKey : jsstring → jsstring.
Variable toLowerCase : jsstring → jsstring.

Local Abbreviation Expense := (Expense Category PaymentMethod).
Local Abbreviation CategoryFilter := (CategoryFilter Category).
Local Abbreviation filtered_by := (filteredExpenses getMonthKey toLowerCase).

Implicit Types (expenses : list Expense) (categoryFilter : CategoryFilter).
Implicit Types (monthFilter searchTerm : jsstring).

Lemma keys_set (k : Category) (v : number) (acc : Rec.t Category) :
  Rec.keys (Rec.set k v acc)
  = if decide (k ∈ Rec.keys acc) then Rec.keys acc else Rec.keys acc ++ [k].
Proof.
  unfold Rec.keys. induction acc as [|[k' v'] acc IH]; [done|].
  cbn [Rec.set]. destruct (decide (k' = k)) as [->|Hk]; rewrite !fmap_cons; cbn [fst].
  - rewrite decide_True; [done | left].
  - rewrite IH. destruct (decide (k ∈ acc.*1)) as [Hin|Hin].
    + rewrite decide_True; [done | by right].
    + rewrite decide_False; [done|].
      intros [->|?]%elem_of_cons; done.
Qed.

(** The properties of the record are the categories of the expenses. *)
Lemma categories_keys (l : list Expense) (c : Category) :
  c ∈ Rec.keys (categories l) ↔ ∃ e, e ∈ l ∧ category e = c.
Proof.
  induction l as [|e l IH] using rev_ind.
  - split; [by intros ?%elem_of_nil | by intros (e & ?%elem_of_nil & _)].
  - rewrite categories_snoc, keys_set.
    setoid_rewrite elem_of_app. setoid_rewrite list_elem_of_singleton.
    destruct (decide (category e ∈ Rec.keys (categories l))) as [Hin|Hin].
    + rewrite IH. split; [intros (e' & ? & ?); eauto|].
      intros (e' & [?| ->] & <-); [eauto|]. by apply IH.
    + rewrite elem_of_app, list_elem_of_singleton, IH. split.
      * intros [(e' & ? & ?)| ->]; eauto.
      * intros (e' & [?| ->] & <-); eauto.
Qed.

Lemma categories_NoDup (l : list Expense) : NoDup (Rec.keys (categories l)).
Proof.
  induction l as [|e l IH] using rev_ind; [constructor|].
  rewrite categories_snoc, keys_set. case_decide; [done|].
  apply NoDup_app. split; [done|]. split; [|apply NoDup_singleton].
  by intros k Hk ->%list_elem_of_singleton.
Qed.

Lemma get_elem_of (c : Category) (v : number) (acc : Rec.t Category) :
  NoDup (Rec.keys acc) → (c, v) ∈ acc → Rec.get c acc = Some v.
Proof.
  unfold Rec.keys. induction acc as [|[k' v'] acc IH]; simpl.
  - by intros _ ?%elem_of_nil.
  - intros [Hk' Hnd]%NoDup_cons [[= -> ->]|Hin]%elem_of_cons.
    + by rewrite decide_True.
    + rewrite decide_False; [by apply IH|].
      intros ->. apply Hk'. apply list_elem_of_fmap. by exists (c, v).
Qed.

(** An entry of the record holds the breakdown value of its category. *)
Lemma categories_entry (l : list Expense) (c : Category) (v : number) :
  (c, v) ∈ categories l → v = breakdown l c.
Proof.
  intros Hin. unfold breakdown.
  by rewrite (get_elem_of c v _ (categories_NoDup l) Hin).
Qed.

Lemma categories_entry_of (l : list Expense) (e : Expense) :
  e ∈ l → (category e, breakdown l (category e)) ∈ categories l.
Proof.
  intros He.
  assert (category e ∈ Rec.keys (categories l)) as Hk
    by (apply categories_keys; eauto).
  apply list_elem_of_fmap in Hk as ([c v] & Hc & Hin). simpl in Hc. subst c.
  by rewrite <- (categories_entry l _ v Hin).
Qed.

Lemma amounts_of_finite (l : list Expense) (c : Category) :
  (∀ e, e ∈ l → PrimFloat.is_finite (amount e) = true) →
  PrimFloat.is_nan (sum (amounts_of c l)) = false.
Proof.
  intros Hfin. apply sum_from_not_nan; [done|].
  apply Forall_forall. intros a (e & -> & He)%list_elem_of_fmap.
  apply Hfin. by apply list_elem_of_filter in He as [_ He].
Qed.


End TopCategory.

(** ** The quick-add form *)

Lemma trimStart_head (s : jsstring) (c : N) :
  head (trimStart s) = Some c → isWhiteSpace c = false.
Proof.
  induction s as [|a s IH]; simpl; [done|].
  destruct (isWhiteSpace a) eqn:Ha; [done|]. simpl. by intros [= <-].
Qed.

Lemma trimEnd_prefix (s : jsstring) : ∃ post, s = trimEnd s ++ post ∧ blank post.
Proof.
  unfold trimEnd. destruct (trimStart_suffix (reverse s)) as (pre & Hs & Hpre).
  exists (reverse pre). split; [|by apply blank_reverse].
  rewrite <- reverse_app, <- Hs. by rewrite reverse_involutive.
Qed.

Lemma trimEnd_last (s : jsstring) (c : N) :
  last (trimEnd s) = Some c → isWhiteSpace c = false.
Proof. unfold trimEnd. rewrite last_reverse. apply trimStart_head. Qed.

(** [s.trim()] is [s] without the white space around it. *)
Lemma trim_spec (s : jsstring) :
  (∃ pre post, s = pre ++ trim s ++ post ∧ blank pre ∧ blank post)
  ∧ (∀ c, head (trim s) = Some c → isWhiteSpace c = false)
  ∧ (∀ c, last (trim s) = Some c → isWhiteSpace c = false).
Proof.
  unfold trim.
  destruct (trimStart_suffix s) as (pre & Hs & Hpre).
  destruct (trimEnd_prefix (trimStart s)) as (post & Ht & Hpost).
  split; [|split].
  - exists pre, post. by rewrite <- Ht.
  - intros c Hc. apply (trimStart_head s). rewrite Ht.
    by destruct (trimEnd (trimStart s)).
  - apply trimEnd_last.
Qed.

Section Submit.
Context {Category PaymentMethod : Type}.
Variable parseFloat : jsstring → number.
Variable toFixed : number → nat → jsstring.
Variable ToNumber : jsstring → number.
Variable todayIso : jsstring.
Variable Food : Category.
Variable Card : PaymentMethod.
Context {S : Type} `{!ExpenseStore Category PaymentMethod S}.

Local Abbreviation State := (State Category PaymentMethod S).
Local Abbreviation submit :=
  (handleSubmit parseFloat toFixed ToNumber todayIso Food Card).

Lemma accepted_not_turnedDown (f : Form.t Category PaymentMethod) :
  accepted parseFloat f ↔ ¬ turnedDown parseFloat f.
Proof.
  unfold accepted, turnedDown.
  destruct (PrimFloat.is_nan _), (_ <=? _)%float; intuition congruence.
Qed.

(** The guard of [handleSubmit] holds of the submissions turned down. *)
Lemma guard_turnedDown (f : Form.t Category PaymentMethod) :
  negb (truthy (trim (Form.description f)))
  || PrimFloat.is_nan (parseFloat (Form.amount f))
  || (parseFloat (Form.amount f) <=? 0)%float = true
  ↔ turnedDown parseFloat f.
Proof.
  rewrite !orb_true_iff, negb_true_iff.
  assert (truthy (trim (Form.description f)) = false ↔ blank (Form.description f))
    as -> by (rewrite <- trim_nil_blank; by destruct (trim _)).
  unfold turnedDown. tauto.
Qed.

(** C8: a submission whose description is empty or white space only, or
    whose amount does not parse as a number, or parses as a number that is
    at most zero, changes nothing: no expense is added and the form keeps its
    state. *)
Theorem handleSubmit_turnedDown (st : State) :
  turnedDown parseFloat (form st) →
  submit st = st
  ∧ expenses (store (submit st)) = expenses (store st)
  ∧ form (submit st) = form st.
Proof.
  intros Hdown%guard_turnedDown.
  assert (submit st = st) as Hst by (unfold handleSubmit; by rewrite Hdown).
  by rewrite Hst.
Qed.

Lemma guard_accepted (f : Form.t Category PaymentMethod) :
  accepted parseFloat f →
  negb (truthy (trim (Form.description f)))
  || PrimFloat.is_nan (parseFloat (Form.amount f))
  || (parseFloat (Form.amount f) <=? 0)%float = false.
Proof.
  intros Hacc%accepted_not_turnedDown.
  destruct (_ || _ || _) eqn:Hg; [|done].
  by apply guard_turnedDown in Hg.
Qed.

(** The state after an accepted submission. *)
Lemma handleSubmit_accepted (st : State) :
  accepted parseFloat (form st) →
  submit st
  = setForm
      (λ state,
        {| Form.description := [];
           Form.amount := [];
           Form.category := Food;
           Form.paymentMethod := Card;
           Form.date := Form.date state;
           Form.notes := [] |})
      (callStore
         (addExpense
            {| Input.description := trim (Form.description (form st));
               Input.amount :=
                 ToNumber (toFixed (parseFloat (Form.amount (form st))) 2);
               Input.category := Form.category (form st);
               Input.paymentMethod := Form.paymentMethod (form st);
               Input.date := Form.date (form st);
               Input.notes := orUndefined (trim (Form.notes (form st))) |})
         st).
Proof.
  intros Hacc%guard_accepted. unfold handleSubmit. by rewrite Hacc.
Qed.

(** C6: an accepted submission calls [addExpense] once, with the six fields
    of the form: the trimmed description, the amount, the category, the
    payment method, the date and the trimmed notes; the form is then reset,
    keeping its date, and the filters stay as they are. *)
Theorem handleSubmit_addExpense (st : State) :
  accepted parseFloat (form st) →
  store (submit st)
  = addExpense
      {| Input.description := trim (Form.description (form st));
         Input.amount := ToNumber (toFixed (parseFloat (Form.amount (form st))) 2);
         Input.category := Form.category (form st);
         Input.paymentMethod := Form.paymentMethod (form st);
         Input.date := Form.date (form st);
         Input.notes := orUndefined (trim (Form.notes (form st))) |}
      (store st)
  ∧ form (submit st)
    = {| Form.description := [];
         Form.amount := [];
         Form.category := Food;
         Form.paymentMethod := Card;
         Form.date := Form.date (form st);
         Form.notes := [] |}
  ∧ categoryFilter (submit st) = categoryFilter st
  ∧ monthFilter (submit st) = monthFilter st
  ∧ searchTerm (submit st) = searchTerm st.
Proof.
  intros Hacc. by rewrite (handleSubmit_accepted st Hacc).
Qed.

Lemma orUndefined_trim (s : jsstring) :
  (blank s → orUndefined (trim s) = None)
  ∧ (¬ blank s → orUndefined (trim s) = Some (trim s)).
Proof.
  rewrite <- trim_nil_blank. unfold orUndefined.
  by destruct (trim s).
Qed.

End Submit.

(** ** Numbers in decimal notation

    What [toFixed] and [toString] write, [Number] reads back: the digits
    carry their value, and a quotient that is a binary64 value is its own
    Number value. *)

Section DecimalNotation.
Local Open Scope Z_scope.

(** *** Digits *)

Lemma digitValue_decimal (c : N) :
  isDigitUnit c → digitValue 10 c = Some (Z.of_N c - 48).
Proof.
  intros [Hl Hu]. unfold digitValue.
  assert ((48 <=? c)%N && (c <=? 57)%N = true) as ->
    by (apply andb_true_iff; split; apply N.leb_le; done).
  simpl. destruct (Z.ltb_spec (Z.of_N c - 48) 10); [done | lia].
Qed.

Lemma readDigits_app (ds r : jsstring) (acc : Z) (n : nat) :
  Forall isDigitUnit ds →
  readDigits 10 (ds ++ r) acc n
  = readDigits 10 r (valueFrom acc ds) (n + length ds)%nat.
Proof.
  intros Hds. revert acc n.
  induction Hds as [|c ds Hc Hds IH]; intros acc n; simpl.
  - by rewrite Nat.add_0_r.
  - rewrite (digitValue_decimal c Hc), IH. f_equal. lia.
Qed.

Lemma valueFrom_app (a b : jsstring) (acc : Z) :
  valueFrom acc (a ++ b) = valueFrom (valueFrom acc a) b.
Proof. revert acc. induction a as [|c a IH]; intros acc; simpl; [done | apply IH]. Qed.

Lemma valueFrom_zeros (j : nat) (ds : jsstring) :
  valueFrom 0 (replicate j 48%N ++ ds) = valueFrom 0 ds.
Proof. induction j as [|j IH]; simpl; [done | exact IH]. Qed.

Lemma digitUnit_digit (d : Z) : 0 <= d < 10 → isDigitUnit (digitUnit d).
Proof. unfold isDigitUnit, digitUnit. lia. Qed.

Lemma digitUnit_value (d : Z) : 0 <= d → Z.of_N (digitUnit d) - 48 = d.
Proof. unfold digitUnit. lia. Qed.

Lemma decimalDigits_digits (fuel : nat) (v : Z) :
  0 <= v → Forall isDigitUnit (decimalDigits fuel v).
Proof.
  revert v. induction fuel as [|fuel IH]; intros v Hv; simpl; [constructor|].
  apply Forall_app. split.
  - destruct (v <? 10); [constructor|]. apply IH. apply Z.div_pos; lia.
  - constructor; [|constructor]. apply digitUnit_digit. apply Z.mod_pos_bound. lia.
Qed.

Lemma decimalDigits_value (fuel : nat) (v : Z) :
  0 <= v < 10 ^ Z.of_nat fuel → valueFrom 0 (decimalDigits fuel v) = v.
Proof.
  revert v. induction fuel as [|fuel IH]; intros v Hv.
  - simpl in *. lia.
  - cbn [decimalDigits]. rewrite valueFrom_app. cbn [valueFrom].
    rewrite digitUnit_value by (apply Z.mod_pos_bound; lia).
    destruct (Z.ltb_spec v 10) as [Hlt|Hge].
    + simpl. rewrite Z.mod_small; lia.
    + rewrite IH.
      * pose proof (Z.div_mod v 10). lia.
      * rewrite Nat2Z.inj_succ, Z.pow_succ_r in Hv by lia.
        split; [apply Z.div_pos; lia|]. apply Z.div_lt_upper_bound; lia.
Qed.

Lemma decimalDigits_length (fuel : nat) (v : Z) :
  1 <= v < 10 ^ Z.of_nat fuel →
  10 ^ (Z.of_nat (length (decimalDigits fuel v)) - 1) <= v
  < 10 ^ Z.of_nat (length (decimalDigits fuel v)).
Proof.
  revert v. induction fuel as [|fuel IH]; intros v Hv.
  - simpl in *. lia.
  - cbn [decimalDigits]. rewrite length_app. cbn [length].
    destruct (Z.ltb_spec v 10) as [Hlt|Hge].
    + simpl. lia.
    + rewrite Nat2Z.inj_succ, Z.pow_succ_r in Hv by lia.
      destruct (IH (v / 10)) as [Hl Hu].
      { split; [apply Z.div_le_lower_bound; lia|].
        apply Z.div_lt_upper_bound; lia. }
      set (L := length (decimalDigits fuel (v / 10))) in *.
      assert (1 <= Z.of_nat L).
      { destruct L; [|lia]. simpl in Hu.
        assert (1 <= v / 10) by (apply Z.div_le_lower_bound; lia). lia. }
      replace (Z.of_nat (L + 1) - 1) with (Z.succ (Z.of_nat L - 1)) by lia.
      replace (Z.of_nat (L + 1)) with (Z.succ (Z.of_nat L)) by lia.
      rewrite !Z.pow_succ_r by lia.
      pose proof (Z.div_mod v 10). pose proof (Z.mod_pos_bound v 10). lia.
Qed.

Lemma decimalDigits_le (fuel : nat) (v : Z) :
  (length (decimalDigits fuel v) <= fuel)%nat.
Proof.
  revert v. induction fuel as [|fuel IH]; intros v; simpl; [lia|].
  rewrite length_app. simpl. destruct (v <? 10); simpl; [lia|].
  specialize (IH (v / 10)). lia.
Qed.

Lemma log2_decimal (v : Z) : 0 <= v → v < 10 ^ Z.of_nat (S (Z.to_nat (Z.log2 v))).
Proof.
  intros Hv. rewrite Nat2Z.inj_succ, Z2Nat.id by apply Z.log2_nonneg.
  destruct (Z.eq_dec v 0) as [->|Hne]; [simpl; lia|].
  pose proof (Z.log2_spec v ltac:(lia)) as [_ Hu].
  pose proof (Z.log2_nonneg v).
  eapply Z.lt_le_trans; [exact Hu|].
  apply Z.pow_le_mono_l. lia.
Qed.

Lemma decimal_digits (v : Z) : 0 <= v → Forall isDigitUnit (decimal v).
Proof. apply decimalDigits_digits. Qed.

Lemma decimal_value (v : Z) : 0 <= v → valueFrom 0 (decimal v) = v.
Proof.
  intros Hv. apply decimalDigits_value. split; [done | by apply log2_decimal].
Qed.

Lemma decimal_nonempty (v : Z) : decimal v ≠ [].
Proof.
  unfold decimal. simpl. intros H. apply (f_equal length) in H.
  rewrite length_app in H. simpl in H. lia.
Qed.

Lemma decimal_length (v : Z) :
  1 <= v →
  10 ^ (Z.of_nat (length (decimal v)) - 1) <= v < 10 ^ Z.of_nat (length (decimal v)).
Proof.
  intros Hv. apply decimalDigits_length. split; [done | apply log2_decimal; lia].
Qed.

Lemma decimal_length_unique (v k : Z) :
  10 ^ (k - 1) <= v < 10 ^ k → 1 <= k → Z.of_nat (length (decimal v)) = k.
Proof.
  intros [Hl Hu] Hk.
  assert (1 <= v).
  { pose proof (Z.pow_pos_nonneg 10 (k - 1)). lia. }
  destruct (decimal_length v) as [Hl' Hu']; [done|].
  set (L := Z.of_nat (length (decimal v))) in *.
  assert (1 <= L).
  { subst L. pose proof (decimal_nonempty v). destruct (decimal v); [done | simpl; lia]. }
  assert (k - 1 < L) by (apply (Z.pow_lt_mono_r_iff 10); lia).
  assert (L - 1 < k) by (apply (Z.pow_lt_mono_r_iff 10); lia).
  lia.
Qed.

(** *** Reading a notation *)

Lemma plain_digit (c : N) : isDigitUnit c → plain c.
Proof. unfold isDigitUnit, plain. lia. Qed.

Lemma plain_not_whiteSpace (c : N) : plain c → isWhiteSpace c = false.
Proof.
  intros Hc. apply not_true_is_false. unfold isWhiteSpace, plain in *.
  rewrite !orb_true_iff, !andb_true_iff, !N.leb_le, !N.eqb_eq. lia.
Qed.

Lemma trim_id (s : jsstring) : Forall plain s → trim s = s.
Proof.
  intros Hs. unfold trim, trimEnd.
  assert (∀ t, Forall plain t → trimStart t = t) as Hstart.
  { intros [|c t] Ht; [done|]. simpl.
    by rewrite plain_not_whiteSpace by (by inversion Ht). }
  rewrite (Hstart s Hs), Hstart, reverse_involutive; [done|].
  by apply Forall_reverse.
Qed.

Lemma nonDecimal_plain (s : jsstring) : Forall plain s → nonDecimal s = None.
Proof.
  destruct s as [|c0 [|c s]]; [done..|]. intros Hs.
  apply Forall_cons in Hs as [_ [Hc _]%Forall_cons].
  unfold nonDecimal.
  assert ((c =? 120)%N || (c =? 88)%N = false) as ->
    by (rewrite orb_false_iff, !N.eqb_neq; unfold plain in Hc; lia).
  assert ((c =? 111)%N || (c =? 79)%N = false) as ->
    by (rewrite orb_false_iff, !N.eqb_neq; unfold plain in Hc; lia).
  assert ((c =? 98)%N || (c =? 66)%N = false) as ->
    by (rewrite orb_false_iff, !N.eqb_neq; unfold plain in Hc; lia).
  by destruct (c0 =? 48)%N.
Qed.

Lemma signOf_digit (c : N) (s : jsstring) :
  isDigitUnit c → signOf (c :: s) = (false, c :: s).
Proof.
  intros Hc. unfold signOf, isDigitUnit in *.
  destruct (N.eqb_spec c 45); [lia|]. destruct (N.eqb_spec c 43); [lia|]. done.
Qed.

Lemma readDigits_all (ds : jsstring) :
  Forall isDigitUnit ds →
  readDigits 10 ds 0 0 = (valueFrom 0 ds, length ds, []).
Proof.
  intros Hds. rewrite <- (app_nil_r ds) at 1. by rewrite readDigits_app.
Qed.

Lemma exponentPart_plus (E : Z) :
  0 <= E → exponentPart (101%N :: 43%N :: decimal E) = Some E.
Proof.
  intros HE. unfold exponentPart. simpl orb. cbv iota. simpl signOf. cbv iota beta.
  rewrite readDigits_all by (by apply decimal_digits).
  rewrite decimal_value by done.
  pose proof (decimal_nonempty E). by destruct (decimal E).
Qed.

(** The notations that [toFixed] and [toString] write, read back:
    digits, then a point and digits or nothing, then an exponent part or
    nothing. *)
Lemma unsignedDecimal_shape (a b frac expo : jsstring) (E : Z) :
  Forall isDigitUnit a → a ≠ [] → Forall isDigitUnit b →
  (frac = [] ∧ b = [] ∨ frac = 46%N :: b) →
  (expo = [] ∧ E = 0 ∨ expo = 101%N :: 43%N :: decimal E ∧ 0 <= E) →
  unsignedDecimal (a ++ frac ++ expo)
  = Some (valueFrom 0 (a ++ b), E - Z.of_nat (length b)).
Proof.
  intros Ha Hne Hb Hfrac Hexpo.
  assert (exponentPart expo = Some E) as Hpart.
  { destruct Hexpo as [ [-> ->] | [-> HE] ]; [done | by apply exponentPart_plus]. }
  assert (∀ acc n, readDigits 10 expo acc n = (acc, n, expo)) as Hstop.
  { intros acc n. by destruct Hexpo as [ [-> ->] | [-> HE] ]. }
  assert (length a ≠ 0%nat) as Hlen by (by destruct a).
  unfold unsignedDecimal. rewrite readDigits_app by done.
  destruct Hfrac as [ [-> ->] | -> ].
  - simpl app at 1. rewrite Hstop.
    assert (match expo with
            | [] => (valueFrom 0 a, 0%nat, [])
            | c :: r' =>
                if (c =? 46)%N then readDigits 10 r' (valueFrom 0 a) 0
                else (valueFrom 0 a, 0%nat, expo)
            end = (valueFrom 0 a, 0%nat, expo)) as ->
      by (by destruct Hexpo as [ [-> ->] | [-> HE] ]).
    destruct (Nat.eqb_spec (0 + length a + 0) 0); [lia|].
    rewrite Hpart, app_nil_r. simpl. repeat f_equal; lia.
  - change ((46%N :: b) ++ expo) with (46%N :: (b ++ expo)).
    cbn [readDigits]. change (digitValue 10 46) with (@None Z). cbv iota.
    change (46 =? 46)%N with true. cbv iota.
    rewrite readDigits_app, Hstop by done.
    destruct (Nat.eqb_spec (0 + length a + (0 + length b)) 0); [lia|].
    rewrite Hpart, valueFrom_app. simpl. repeat f_equal; lia.
Qed.

Lemma shape_plain (a b frac expo : jsstring) (E : Z) :
  Forall isDigitUnit a → Forall isDigitUnit b →
  (frac = [] ∧ b = [] ∨ frac = 46%N :: b) →
  (expo = [] ∧ E = 0 ∨ expo = 101%N :: 43%N :: decimal E ∧ 0 <= E) →
  Forall plain (a ++ frac ++ expo).
Proof.
  intros Ha Hb Hfrac Hexpo.
  assert (∀ ds, Forall isDigitUnit ds → Forall plain ds) as Hplain
    by (intros ds Hds; apply (Forall_impl _ _ _ Hds), plain_digit).
  rewrite !Forall_app. split; [auto|]. split.
  - destruct Hfrac as [ [-> ->] | -> ]; [done|].
    constructor; [left; lia | auto].
  - destruct Hexpo as [ [-> ->] | [-> HE] ]; [done|].
    constructor; [by right|]. constructor; [left; lia|].
    by apply Hplain, decimal_digits.
Qed.

Lemma ToNumber_shape (a b frac expo : jsstring) (E : Z) :
  Forall isDigitUnit a → a ≠ [] → Forall isDigitUnit b →
  (frac = [] ∧ b = [] ∨ frac = 46%N :: b) →
  (expo = [] ∧ E = 0 ∨ expo = 101%N :: 43%N :: decimal E ∧ 0 <= E) →
  ToNumber (a ++ frac ++ expo)
  = decimalValue (valueFrom 0 (a ++ b)) (E - Z.of_nat (length b)).
Proof.
  intros Ha Hne Hb Hfrac Hexpo.
  pose proof (shape_plain a b frac expo E Ha Hb Hfrac Hexpo) as Hplain.
  pose proof (unsignedDecimal_shape a b frac expo E Ha Hne Hb Hfrac Hexpo) as Hread.
  unfold ToNumber. rewrite (trim_id _ Hplain).
  destruct a as [|c a]; [done|]. apply Forall_cons in Ha as [Hc Ha].
  change ((c :: a) ++ frac ++ expo) with (c :: (a ++ frac ++ expo)) in *.
  cbv iota.
  rewrite (nonDecimal_plain _ Hplain).
  rewrite (signOf_digit c _ Hc).
  rewrite bool_decide_eq_false_2.
  - by rewrite Hread.
  - intros Heq. injection Heq as -> _. unfold isDigitUnit in Hc. lia.
Qed.

(** *** Values that are their own rounding *)

Lemma digits2_pos_unique (p : positive) (d : Z) :
  2 ^ (d - 1) <= Zpos p < 2 ^ d → Zpos (digits2_pos p) = d.
Proof.
  intros [Hl Hu]. pose proof (digits2_pos_bounds p) as [Hl' Hu'].
  assert (1 <= d).
  { destruct (Z.le_gt_cases 1 d) as [|Hd]; [done|].
    assert (d = 0 ∨ d < 0) as [->|Hneg] by lia; [simpl in Hu; lia|].
    rewrite Z.pow_neg_r in Hu by done. lia. }
  assert (d - 1 < Zpos (digits2_pos p)) by (apply (Z.pow_lt_mono_r_iff 2); lia).
  assert (Zpos (digits2_pos p) - 1 < d) by (apply (Z.pow_lt_mono_r_iff 2); lia).
  lia.
Qed.

Lemma shr_1_even (z : Z) :
  0 <= z →
  shr_1 {| shr_m := 2 * z; shr_r := false; shr_s := false |}
  = {| shr_m := z; shr_r := false; shr_s := false |}.
Proof. by destruct z. Qed.

Lemma iter_shr_1_exact (p : positive) (z : Z) :
  0 <= z →
  SpecFloat.iter_pos shr_1 p {| shr_m := z * 2 ^ Zpos p; shr_r := false; shr_s := false |}
  = {| shr_m := z; shr_r := false; shr_s := false |}.
Proof.
  revert z. induction p as [p IH|p IH|]; intros z Hz; cbn [SpecFloat.iter_pos].
  - replace (z * 2 ^ Zpos p~1) with (2 * (z * 2 ^ Zpos p * 2 ^ Zpos p)).
    + rewrite shr_1_even, IH, IH by (try apply Z.mul_nonneg_nonneg; lia). done.
    + replace (Zpos p~1) with (1 + Zpos p + Zpos p) by lia.
      rewrite !Z.pow_add_r by lia. change (2 ^ 1) with 2. ring.
  - replace (z * 2 ^ Zpos p~0) with (z * 2 ^ Zpos p * 2 ^ Zpos p).
    + rewrite IH, IH by (try apply Z.mul_nonneg_nonneg; lia). done.
    + replace (Zpos p~0) with (Zpos p + Zpos p) by lia.
      rewrite !Z.pow_add_r by lia. ring.
  - replace (z * 2 ^ 1) with (2 * z) by lia. by apply shr_1_even.
Qed.

(** A quotient that is a binary64 value is its own Number value: a multiple
    [m * 2 ^ e * c] of [c], for a significand [m] of 53 bits and [1 <= e],
    divided by [c]. *)
Lemma SFdiv_exact (m c np : positive) (e : Z) :
  bounded prec emax m e = true → 1 <= e →
  Zpos np = Zpos m * 2 ^ e * Zpos c →
  SFdiv prec emax (S754_finite false np 0) (S754_finite false c 0)
  = S754_finite false m e.
Proof.
  intros [Hcan Hmax%Z.leb_le]%andb_true_iff He Hnp.
  unfold canonical_mantissa in Hcan. apply Z.eqb_eq in Hcan.
  unfold fexp, SpecFloat.emin, prec, emax in Hcan, Hmax.
  assert (Zpos (digits2_pos m) = 53) as Hdm by lia.
  pose proof (digits2_pos_bounds m) as [Hml Hmu]. rewrite Hdm in Hml, Hmu.
  pose proof (digits2_pos_bounds c) as [Hcl Hcu].
  pose proof (digits2_pos_bounds np) as [Hnl Hnu].
  assert (0 < 2 ^ e) as Hpe by (apply Z.pow_pos_nonneg; lia).
  assert (∃ q, Zpos q = Zpos m * 2 ^ e) as [q Hq].
  { exists (Z.to_pos (Zpos m * 2 ^ e)). rewrite Z2Pos.id; lia. }
  assert (Zpos (digits2_pos q) = 53 + e) as Hdq.
  { apply digits2_pos_unique. rewrite Hq.
    replace (53 + e - 1) with (52 + e) by lia.
    rewrite !Z.pow_add_r by lia. simpl Z.sub in Hml. nia. }
  assert (Zpos (digits2_pos c) + 53 <= Zpos (digits2_pos np)) as Hd.
  { assert (Zpos (digits2_pos c) + 52 < Zpos (digits2_pos np)); [|lia].
    apply (Z.pow_lt_mono_r_iff 2); [lia..|].
    eapply Z.le_lt_trans; [|exact Hnu]. rewrite Hnp.
    replace (Zpos (digits2_pos c) + 52) with (52 + 1 + (Zpos (digits2_pos c) - 1)) by lia.
    rewrite !Z.pow_add_r by lia.
    assert (2 ^ 1 <= 2 ^ e) by (apply Z.pow_le_mono_r; lia).
    simpl Z.sub in Hml.
    assert (0 < 2 ^ (Zpos (digits2_pos c) - 1)) by (apply Z.pow_pos_nonneg; lia).
    nia. }
  unfold SFdiv, SFdiv_core_binary. cbn [Zdigits2].
  assert (Z.min (fexp prec emax (Zpos (digits2_pos np) + 0 - (Zpos (digits2_pos c) + 0)))
            (0 - 0) = 0) as ->.
  { unfold fexp, SpecFloat.emin, prec, emax. lia. }
  change (0 - 0 - 0) with 0. cbv iota.
  change (IntDef.Z.div_eucl (Zpos np) (Zpos c)) with (Z.div_eucl (Zpos np) (Zpos c)).
  assert (Z.div_eucl (Zpos np) (Zpos c) = (Zpos q, 0)) as ->.
  { assert (Zpos np / Zpos c = Zpos q) as Hdiv
      by (rewrite Hnp, <- Hq; apply Z.div_mul; lia).
    assert (Zpos np mod Zpos c = 0) as Hmod
      by (rewrite Hnp, <- Hq; apply Z.mod_mul; lia).
    unfold Z.div, Z.modulo in Hdiv, Hmod.
    destruct (Z.div_eucl (Zpos np) (Zpos c)) as [q' r'].
    simpl in Hdiv, Hmod. by subst. }
  assert (new_location (Zpos c) 0 = loc_Exact) as ->.
  { unfold new_location. by destruct (Z.even (Zpos c)). }
  cbn [xorb]. unfold binary_round_aux, shr_fexp at 1. cbn [Zdigits2].
  rewrite Hdq.
  assert (fexp prec emax (53 + e + 0) - 0 = e) as ->
    by (unfold fexp, SpecFloat.emin, prec, emax; lia).
  cbn [shr_record_of_loc]. unfold shr at 1.
  destruct e as [|pe|pe]; [lia| |lia].
  rewrite Hq, iter_shr_1_exact by lia.
  cbn [shr_m loc_of_shr_record round_nearest_even].
  unfold shr_fexp. cbn [Zdigits2]. rewrite Hdm.
  assert (fexp prec emax (53 + (0 + Zpos pe)) - (0 + Zpos pe) = 0) as ->
    by (unfold fexp, SpecFloat.emin, prec, emax; lia).
  cbn [shr shr_record_of_loc shr_m].
  assert ((0 + Zpos pe <=? FloatOps.emax - FloatOps.prec) = true) as ->
    by (apply Z.leb_le; unfold prec, emax; lia).
  done.
Qed.

(** *** Hundredths, in binary64 arithmetic *)

Lemma digits2_pos_shift (n q : positive) (j : Z) :
  0 <= j → Zpos q = Zpos n * 2 ^ j →
  Zpos (digits2_pos q) = Zpos (digits2_pos n) + j.
Proof.
  intros Hj Hq. apply digits2_pos_unique. rewrite Hq.
  pose proof (digits2_pos_bounds n) as [Hl Hu].
  assert (0 < 2 ^ j) by (apply Z.pow_pos_nonneg; lia).
  replace (Zpos (digits2_pos n) + j - 1) with (Zpos (digits2_pos n) - 1 + j) by lia.
  rewrite !Z.pow_add_r by lia. split.
  - apply Z.mul_le_mono_nonneg_r; lia.
  - apply Z.mul_lt_mono_pos_r; lia.
Qed.

(** A significand that is already in place is not rounded. *)
Lemma binary_round_aux_canonical (s : bool) (m : positive) (e : Z) :
  bounded prec emax m e = true →
  binary_round_aux prec emax s (Zpos m) e loc_Exact = S754_finite s m e.
Proof.
  intros [Hcan%Z.eqb_eq Hmax]%andb_true_iff.
  unfold binary_round_aux, shr_fexp. cbn [Zdigits2]. rewrite Hcan, Z.sub_diag.
  cbn [shr shr_record_of_loc shr_m loc_of_shr_record round_nearest_even Zdigits2].
  rewrite Hcan, Z.sub_diag. cbn [shr shr_m]. by rewrite Hmax.
Qed.

(** The number of a positive integer below 2^53: the integer, with its
    significand moved up to 53 bits. *)
Lemma of_uint63_spec_small (n : positive) :
  Zpos n < 2 ^ 53 →
  ∃ (q : positive) (j : Z),
    Prim2SF (of_uint63 (Uint63.of_Z (Zpos n))) = S754_finite false q (- j)
    ∧ 0 <= j ∧ Zpos (digits2_pos n) + j = 53 ∧ Zpos q = Zpos n * 2 ^ j.
Proof.
  intros Hn. rewrite of_uint63_spec.
  rewrite Uint63.of_Z_spec, Z.mod_small
    by (change Uint63.wB with (2 ^ 63); assert (2 ^ 53 < 2 ^ 63) by done; lia).
  pose proof (digits2_pos_bounds n) as [Hl Hu].
  assert (Zpos (digits2_pos n) <= 53) as Hd.
  { destruct (Z.le_gt_cases (Zpos (digits2_pos n)) 53) as [|Hgt]; [done|].
    assert (2 ^ 53 <= 2 ^ (Zpos (digits2_pos n) - 1)) by (apply Z.pow_le_mono_r; lia).
    lia. }
  cbn [binary_normalize]. unfold binary_round, shl_align.
  assert (fexp prec emax (Zpos (digits2_pos n) + 0) - 0 = Zpos (digits2_pos n) - 53) as ->
    by (unfold fexp, SpecFloat.emin, prec, emax; lia).
  destruct (Zpos (digits2_pos n) - 53) as [|j|j] eqn:Hj; [|lia|].
  - exists n, 0. rewrite binary_round_aux_canonical.
    + split; [done|]. split; [done|]. split; lia.
    + unfold bounded, canonical_mantissa, fexp, SpecFloat.emin, prec, emax.
      apply andb_true_iff. split; [apply Z.eqb_eq; lia | done].
  - exists (Pos.iter xO n j), (Zpos j).
    assert (Zpos (Pos.iter xO n j) = Zpos n * 2 ^ Zpos j) as Hq by apply iter_xO_value.
    assert (Zpos (digits2_pos (Pos.iter xO n j)) = 53) as Hdq
      by (rewrite (digits2_pos_shift n _ (Zpos j)); [lia | lia | done]).
    rewrite binary_round_aux_canonical.
    + split; [|split; [lia|split; [lia | done]]].
      f_equal. unfold fexp, SpecFloat.emin, prec, emax. lia.
    + unfold bounded, canonical_mantissa. rewrite Hdq.
      unfold fexp, SpecFloat.emin, prec, emax.
      apply andb_true_iff. split; [apply Z.eqb_eq; lia | apply Z.leb_le; lia].
Qed.

(** Binary64 division of an integer below 2^53 by 100, on the numbers or on
    the integers: the same quotient is rounded. *)
Lemma SFdiv_hundred (n q : positive) (j : Z) :
  0 <= j → Zpos (digits2_pos n) + j = 53 → Zpos q = Zpos n * 2 ^ j →
  SFdiv prec emax (S754_finite false q (- j))
    (S754_finite false 7036874417766400 (-46))
  = SFdiv prec emax (S754_finite false n 0) (S754_finite false 100 0).
Proof.
  intros Hj Hd Hq.
  assert (0 < 2 ^ j) as Hpj by (apply Z.pow_pos_nonneg; lia).
  assert (Zpos (digits2_pos q) = 53) as Hdq
    by (rewrite (digits2_pos_shift n q j); [lia | lia | done]).
  unfold SFdiv, SFdiv_core_binary. cbn [Zdigits2]. rewrite Hdq.
  change (Zpos (digits2_pos 7036874417766400)) with 53.
  change (Zpos (digits2_pos 100)) with 7.
  assert (Z.min (fexp prec emax (53 + - j - (53 + -46))) (- j - -46) = - (7 + j)) as ->
    by (unfold fexp, SpecFloat.emin, prec, emax; lia).
  assert (Z.min (fexp prec emax (Zpos (digits2_pos n) + 0 - (7 + 0))) (0 - 0)
          = - (7 + j)) as ->
    by (unfold fexp, SpecFloat.emin, prec, emax; lia).
  replace (- j - -46 - - (7 + j)) with 53 by lia.
  replace (0 - 0 - - (7 + j)) with (7 + j) by lia.
  destruct (7 + j) as [|s|s] eqn:Hs; [lia| |lia].
  cbv iota. rewrite !Z.shiftl_mul_pow2 by lia. rewrite <- Hs.
  set (a := Zpos n * 2 ^ (7 + j)).
  assert (Zpos q * 2 ^ 53 = a * 2 ^ 46) as ->.
  { subst a. rewrite Hq. rewrite Z.pow_add_r by lia.
    change (2 ^ 53) with (2 ^ 7 * 2 ^ 46). ring. }
  change (Zpos 7036874417766400) with (100 * 2 ^ 46).
  assert (0 <= a) by (subst a; apply Z.mul_nonneg_nonneg; [lia | apply Z.pow_nonneg; lia]).
  pose proof (Z.div_mod a 100 ltac:(lia)) as Hdm.
  pose proof (Z.mod_pos_bound a 100 ltac:(lia)) as Hr.
  assert (a * 2 ^ 46 / (100 * 2 ^ 46) = a / 100) as Hdiv
    by (apply Z.div_mul_cancel_r; [lia | by vm_compute]).
  assert ((a * 2 ^ 46) mod (100 * 2 ^ 46) = a mod 100 * 2 ^ 46) as Hmod
    by (apply Z.mul_mod_distr_r; [lia | by vm_compute]).
  unfold Z.div, Z.modulo in Hdiv, Hmod.
  change (IntDef.Z.div_eucl ?u ?v) with (Z.div_eucl u v).
  destruct (Z.div_eucl (a * 2 ^ 46) (100 * 2 ^ 46)) as [q1 r1].
  destruct (Z.div_eucl a 100) as [q2 r2] eqn:Hq2.
  simpl in Hdiv, Hmod. subst q1 r1.
  assert (new_location (100 * 2 ^ 46) (r2 * 2 ^ 46) = new_location 100 r2) as ->; [|done].
  unfold Z.modulo in Hr. rewrite Hq2 in Hr.
  unfold new_location.
  change (Z.even (100 * 2 ^ 46)) with true. change (Z.even 100) with true. cbv iota.
  unfold new_location_even.
  destruct (Z.eqb_spec r2 0) as [->|Hne]; [done|].
  destruct (Z.eqb_spec (r2 * 2 ^ 46) 0) as [H0|_].
  { assert (0 < 2 ^ 46) by (by vm_compute). nia. }
  f_equal. change (2 ^ 46) with 70368744177664.
  destruct (Z.compare_spec (2 * r2) 100),
    (Z.compare_spec (2 * (r2 * 70368744177664)) (100 * 70368744177664));
    (done || lia).
Qed.

(** The Number value for [n] hundredths is [n / 100] in binary64
    arithmetic. *)
Lemma NumberValue_hundredths (n : Z) :
  0 <= n < 2 ^ 53 → NumberValue n 100 = (ofInteger n / 100)%float.
Proof.
  intros [Hpos Hn]. destruct n as [|n|n]; [by vm_compute| |lia].
  destruct (of_uint63_spec_small n Hn) as (q & j & Hspec & Hj & Hd & Hq).
  unfold NumberValue, ofInteger.
  rewrite <- (SFdiv_hundred n q j Hj Hd Hq).
  rewrite <- Hspec.
  change (S754_finite false 7036874417766400 (-46)) with (Prim2SF 100%float).
  rewrite <- div_spec. apply SF2Prim_Prim2SF.
Qed.

Lemma NumberValue_exact (x : number) (m : positive) (e c : Z) :
  Prim2SF x = S754_finite false m e → 1 <= e → 0 < c →
  NumberValue (Zpos m * 2 ^ e * c) c = x.
Proof.
  intros Hx He Hc.
  pose proof (Prim2SF_valid x) as Hvalid. rewrite Hx in Hvalid. simpl in Hvalid.
  assert (0 < 2 ^ e) by (apply Z.pow_pos_nonneg; lia).
  destruct c as [|c|c]; try lia.
  destruct (Zpos m * 2 ^ e * Zpos c) as [|np|np] eqn:Hnp; try lia.
  unfold NumberValue.
  rewrite (SFdiv_exact m c np e Hvalid He) by done.
  rewrite <- Hx. apply SF2Prim_Prim2SF.
Qed.

(** *** [toFixed], read back *)

Lemma ToNumber_fixedNotation (n : Z) (f : nat) :
  0 <= n → f ≠ 0%nat →
  ToNumber (fixedNotation n f) = decimalValue n (- Z.of_nat f).
Proof.
  intros Hn Hf. unfold fixedNotation.
  destruct (Nat.eqb_spec f 0) as [|_]; [done|].
  set (m := if (length (decimal n) <=? f)%nat
            then replicate (f + 1 - length (decimal n)) 48%N ++ decimal n
            else decimal n).
  assert (Forall isDigitUnit m ∧ valueFrom 0 m = n ∧ (f < length m)%nat)
    as (Hdigits & Hvalue & Hlen).
  { subst m. destruct (Nat.leb_spec (length (decimal n)) f) as [Hle|Hlt].
    - split; [|split].
      + apply Forall_app. split; [|by apply decimal_digits].
        apply Forall_replicate. unfold isDigitUnit. lia.
      + by rewrite valueFrom_zeros, decimal_value.
      + rewrite length_app, length_replicate. lia.
    - split; [by apply decimal_digits|]. split; [by apply decimal_value | lia]. }
  set (k := length m) in *.
  replace (take (k - f) m ++ str "." ++ drop (k - f) m)
    with (take (k - f) m ++ (46%N :: drop (k - f) m) ++ [])
    by (by rewrite app_nil_r).
  rewrite (ToNumber_shape (take (k - f) m) (drop (k - f) m) _ [] 0).
  - rewrite take_drop, Hvalue, length_drop. f_equal. lia.
  - by apply Forall_take.
  - intros Hnil. apply (f_equal length) in Hnil.
    rewrite length_take in Hnil. simpl in Hnil. lia.
  - by apply Forall_drop.
  - by right.
  - by left.
Qed.

(** *** [toString], read back *)

Section Candidates.
Variables (m : positive) (e : Z) (num n0 : Z).
Hypothesis n0_pos : 1 <= n0.
Hypothesis n0_bounds : 10 ^ (n0 - 1) <= num < 10 ^ n0.

Lemma candidate_sound (k s n : Z) :
  1 <= k → candidate m e num 1 n0 k = Some (s, n) →
  reads m e s n k = true ∧ 10 ^ (k - 1) <= s < 10 ^ k ∧ n0 <= n.
Proof.
  intros Hk. unfold candidate.
  set (a := num * 10 ^ Z.max 0 (k - n0)).
  set (b := 1 * 10 ^ Z.max 0 (n0 - k)).
  assert (0 < 10 ^ (k - 1)) as Hpk by (apply Z.pow_pos_nonneg; lia).
  assert (10 ^ k = 10 * 10 ^ (k - 1)) as Hk10.
  { replace k with (Z.succ (k - 1)) at 1 by lia. apply Z.pow_succ_r. lia. }
  assert (0 < b ∧ b * 10 ^ (k - 1) <= a ∧ a < b * 10 ^ k) as (Hb & Hlo & Hhi).
  { subst a b. destruct (Z.le_gt_cases k n0) as [Hle|Hgt].
    - rewrite (Z.max_l 0 (k - n0)), (Z.max_r 0 (n0 - k)) by lia.
      rewrite Z.pow_0_r, Z.mul_1_r, Z.mul_1_l, <- !Z.pow_add_r by lia.
      replace (n0 - k + (k - 1)) with (n0 - 1) by lia.
      replace (n0 - k + k) with n0 by lia.
      split; [apply Z.pow_pos_nonneg; lia | exact n0_bounds].
    - rewrite (Z.max_r 0 (k - n0)), (Z.max_l 0 (n0 - k)) by lia.
      rewrite Z.pow_0_r, !Z.mul_1_l.
      assert (0 < 10 ^ (k - n0)) by (apply Z.pow_pos_nonneg; lia).
      assert (10 ^ (k - 1) = 10 ^ (n0 - 1) * 10 ^ (k - n0)) as ->
        by (rewrite <- Z.pow_add_r by lia; f_equal; lia).
      assert (10 ^ k = 10 ^ n0 * 10 ^ (k - n0)) as ->
        by (rewrite <- Z.pow_add_r by lia; f_equal; lia).
      destruct n0_bounds as [Hl Hu].
      split; [lia|]. split.
      + apply Z.mul_le_mono_nonneg_r; lia.
      + apply Z.mul_lt_mono_pos_r; lia. }
  assert (10 ^ (k - 1) <= a / b < 10 ^ k) as Hbounds.
  { split; [apply Z.div_le_lower_bound; lia | apply Z.div_lt_upper_bound; lia]. }
  set (lo := a / b) in *.
  set (hi := if lo + 1 =? 10 ^ k then (10 ^ (k - 1), n0 + 1) else (lo + 1, n0)).
  assert (10 ^ (k - 1) <= hi.1 < 10 ^ k ∧ n0 <= hi.2) as Hhib.
  { subst hi. destruct (Z.eqb_spec (lo + 1) (10 ^ k)); simpl; lia. }
  destruct (reads m e lo n0 k) eqn:Hlower, (reads m e hi.1 hi.2 k) eqn:Hupper;
    cbn [andb]; intros Hsome; try discriminate Hsome.
  - assert ((s, n) = (lo, n0) ∨ (s, n) = hi) as [Heq|Heq].
    { injection Hsome as Hsome. symmetry in Hsome.
      destruct (2 * (a `mod` b) <? b); [by left|].
      destruct (b <? 2 * (a `mod` b)); [by right|].
      destruct (Z.even lo); [by left | by right]. }
    + injection Heq as -> ->. split; [done | lia].
    + rewrite <- Heq in Hupper, Hhib. simpl in *. done.
  - injection Hsome as -> ->. split; [done | lia].
  - assert ((s, n) = hi) as Heq by congruence.
    rewrite <- Heq in Hupper, Hhib. simpl in *. done.
Qed.

Lemma shortestFrom_some (fuel : nat) (k goal : Z) :
  k <= goal < k + Z.of_nat fuel →
  is_Some (candidate m e num 1 n0 goal) →
  ∃ k', k <= k' <= goal
        ∧ candidate m e num 1 n0 k' = Some (shortestFrom m e num 1 fuel n0 k).
Proof.
  revert k. induction fuel as [|fuel IH]; intros k Hk Hgoal; [lia|].
  cbn [shortestFrom].
  destruct (candidate m e num 1 n0 k) as [r|] eqn:Hc.
  - exists k. split; [lia | done].
  - assert (k ≠ goal) by (intros ->; rewrite Hc in Hgoal; by destruct Hgoal).
    destruct (IH (k + 1)) as (k' & Hk' & Hfound); [lia | done|].
    exists k'. split; [lia | done].
Qed.

End Candidates.

Lemma scientific_large (n : Z) (d : N) (ds : jsstring) :
  22 <= n →
  scientific n (d :: ds)
  = [d] ++ (if decide (ds = []) then [] else 46%N :: ds)
    ++ 101%N :: 43%N :: decimal (n - 1).
Proof.
  intros Hn. unfold scientific.
  destruct (Z.leb_spec n 21); [lia|]. rewrite !andb_false_r.
  destruct (Z.ltb_spec (n - 1) 0); [lia|].
  replace (Z.abs (n - 1)) with (n - 1) by lia.
  destruct (Z.leb_spec n 0); [lia|]. rewrite andb_false_r.
  destruct (decide (ds = [])) as [->|Hne]; [reflexivity|].
  by destruct ds.
Qed.

Lemma ToNumber_finiteToString (x : number) (m : positive) (e : Z) :
  Prim2SF x = S754_finite false m e →
  10 ^ 21 * denominator e <= numerator m e →
  1 <= e ∧ ToNumber (finiteToString m e) = x.
Proof.
  intros Hx Hbig.
  pose proof (Prim2SF_valid x) as Hvalid. rewrite Hx in Hvalid.
  apply andb_true_iff in Hvalid as [Hcan Hmax].
  unfold canonical_mantissa in Hcan. apply Z.eqb_eq in Hcan.
  pose proof (digits2_pos_bounds m) as [_ Hmu].
  assert (1 <= e) as He.
  { destruct (Z.le_gt_cases 1 e) as [|Hneg]; [done|]. exfalso.
    unfold numerator, denominator in Hbig.
    rewrite (Z.max_l 0 e), Z.pow_0_r in Hbig by lia.
    assert (0 < 2 ^ Z.max 0 (- e)) by (apply Z.pow_pos_nonneg; lia).
    assert (Zpos (digits2_pos m) <= 53)
      by (unfold fexp, SpecFloat.emin, prec, emax in Hcan; lia).
    assert (2 ^ Zpos (digits2_pos m) <= 2 ^ 53) by (apply Z.pow_le_mono_r; lia).
    assert (2 ^ 53 < 10 ^ 21) by (by vm_compute). nia. }
  split; [done|].
  unfold finiteToString.
  assert (denominator e = 1) as Hden
    by (unfold denominator; rewrite Z.max_l by lia; done).
  rewrite Hden in *.
  assert (numerator m e = Zpos m * 2 ^ e) as Hnum
    by (unfold numerator; rewrite Z.max_r by lia; done).
  rewrite Z.mul_1_r in Hbig.
  set (num := numerator m e) in *.
  assert (0 < 2 ^ e) by (apply Z.pow_pos_nonneg; lia).
  assert (1 <= num) by lia.
  set (n0 := decimalExponent num 1).
  assert (n0 = Z.of_nat (length (decimal num))) as Hn0.
  { subst n0. unfold decimalExponent.
    destruct (Z.leb_spec 1 num); [|lia]. by rewrite Z.div_1_r. }
  assert (10 ^ (n0 - 1) <= num < 10 ^ n0) as Hbounds
    by (rewrite Hn0; by apply decimal_length).
  assert (22 <= n0) as Hlarge.
  { assert (21 < n0); [|lia]. apply (Z.pow_lt_mono_r_iff 10); lia. }
  simpl (Z.log2 1). rewrite Z.add_0_r.
  set (fuel := S (Z.to_nat (Z.log2 num))).
  destruct (shortestFrom_some m e num n0 fuel 1 n0)
    as (k & Hk & Hfound).
  { split; [lia|]. rewrite Hn0. subst fuel.
    pose proof (decimalDigits_le (S (Z.to_nat (Z.log2 num))) num). unfold decimal. lia. }
  { unfold candidate.
    assert (reads m e (num * 10 ^ Z.max 0 (n0 - n0)
              / (1 * 10 ^ Z.max 0 (n0 - n0))) n0 n0 = true) as ->.
    { rewrite Z.sub_diag. simpl (Z.max 0 0). rewrite Z.pow_0_r, !Z.mul_1_r, Z.div_1_r.
      unfold reads, decimalValue. rewrite Z.sub_diag. simpl (0 <=? 0).
      rewrite Z.pow_0_r, Hnum.
      rewrite (NumberValue_exact x m e 1 Hx He) by lia.
      change (0 <=? 0) with true. cbv iota.
      by rewrite Hx, Pos.eqb_refl, Z.eqb_refl. }
    cbn [andb]. by destruct (reads _ _ _ _). }
  destruct (shortestFrom m e num 1 fuel n0 1) as [s n].
  destruct (candidate_sound m e num n0 ltac:(lia) Hbounds k s n
              ltac:(lia) Hfound) as (Hreads & Hs & Hn).
  assert (1 <= s) by (pose proof (Z.pow_pos_nonneg 10 (k - 1)); lia).
  pose proof (decimal_length_unique s k Hs ltac:(lia)) as Hlen.
  pose proof (decimal_digits s ltac:(lia)) as Hdigits.
  pose proof (decimal_value s ltac:(lia)) as Hvalue.
  destruct (decimal s) as [|d ds]; [simpl in Hlen; lia|].
  apply Forall_cons in Hdigits as [Hd Hds].
  rewrite scientific_large by lia.
  rewrite (ToNumber_shape [d] ds _ _ (n - 1)).
  - apply Prim2SF_inj. rewrite Hx.
    change ([d] ++ ds) with (d :: ds). rewrite Hvalue.
    replace (n - 1 - Z.of_nat (length ds)) with (n - k)
      by (cbn [length] in Hlen; lia).
    unfold reads in Hreads.
    destruct (Prim2SF (decimalValue s (n - k))) as [| | |[] m' e']; try done.
    apply andb_true_iff in Hreads as [->%Pos.eqb_eq ->%Z.eqb_eq]. done.
  - by constructor.
  - done.
  - done.
  - clear. destruct ds; [left | right]; done.
  - right. split; [done | lia].
Qed.

(** *** Rounding to two decimal places *)

Lemma mathematicalValue_fraction (x : number) (m : positive) (e : Z) :
  Prim2SF x = S754_finite false m e →
  (mathematicalValue x * inject_Z (denominator e) == inject_Z (numerator m e))%Q.
Proof.
  intros Hx. unfold mathematicalValue, numerator, denominator. rewrite Hx.
  destruct (Z.le_gt_cases 0 e) as [He|He].
  - rewrite (Z.max_r 0 e), (Z.max_l 0 (- e)) by lia.
    change (inject_Z (2 ^ 0)) with 1%Q.
    rewrite inject_Z_mult, Zpower_Qpower by done.
    change (inject_Z 2) with 2%Q.
    generalize (2 ^ e)%Q. intros P. ring.
  - rewrite (Z.max_l 0 e), (Z.max_r 0 (- e)) by lia.
    rewrite Z.pow_0_r, Z.mul_1_r.
    rewrite Zpower_Qpower by lia. rewrite Qpower_opp.
    change (inject_Z 2) with 2%Q.
    assert (~ (2 ^ e == 0)%Q) as Hne by (by apply Qpower_not_0).
    revert Hne. generalize (2 ^ e)%Q. intros P Hne.
    field. exact Hne.
Qed.

Lemma nearestHundredths_quotient (q : Q) (num den n : Z) :
  0 < den →
  (q * inject_Z den == inject_Z num)%Q →
  2 * n * den - den <= 200 * num < 2 * n * den + den →
  nearestHundredths q n.
Proof.
  intros Hden Hq [Hl Hu].
  rewrite Zle_Qle in Hl. rewrite Zlt_Qlt in Hu.
  assert (0 < inject_Z den)%Q as HD by (by rewrite <- (Zlt_Qlt 0)).
  assert (inject_Z (2 * n * den - den)
          == 2 * (inject_Z n * inject_Z den) - inject_Z den)%Q as El
    by (unfold Z.sub; rewrite inject_Z_plus, inject_Z_opp, !inject_Z_mult; ring).
  assert (inject_Z (2 * n * den + den)
          == 2 * (inject_Z n * inject_Z den) + inject_Z den)%Q as Eu
    by (rewrite inject_Z_plus, !inject_Z_mult; ring).
  assert (inject_Z (200 * num) == 200 * (q * inject_Z den))%Q as En
    by (rewrite inject_Z_mult, Hq; reflexivity).
  rewrite El, En in Hl. rewrite Eu, En in Hu. clear El Eu En Hq.
  unfold nearestHundredths.
  revert Hl Hu HD. generalize (inject_Z den), (inject_Z n). intros D N Hl Hu HD.
  split.
  - apply Qnot_lt_le. intros Hlt.
    assert ((100 * q - (N - (1 # 2))) * D < 0)%Q as H.
    { rewrite <- (Qmult_0_l D). apply Qmult_lt_compat_r; [done | lra]. }
    assert ((100 * q - (N - (1 # 2))) * D
            == (200 * (q * D) - (2 * (N * D) - D)) * (1 # 2))%Q as E by ring.
    rewrite E in H. revert Hl H. generalize (q * D)%Q, (N * D)%Q. intros; lra.
  - apply Qnot_le_lt. intros Hle.
    assert (0 <= (100 * q - (N + (1 # 2))) * D)%Q as H
      by (apply Qmult_le_0_compat; lra).
    assert ((100 * q - (N + (1 # 2))) * D
            == (200 * (q * D) - (2 * (N * D) + D)) * (1 # 2))%Q as E by ring.
    rewrite E in H. revert Hu H. generalize (q * D)%Q, (N * D)%Q. intros; lra.
Qed.

(** The hundredths nearest to a number are determined by it. *)
Lemma nearestHundredths_unique (q : Q) (n n' : Z) :
  nearestHundredths q n → nearestHundredths q n' → n = n'.
Proof.
  intros [Hl Hu] [Hl' Hu'].
  assert (inject_Z n < inject_Z (n' + 1))%Q as H1
    by (rewrite inject_Z_plus; change (inject_Z 1) with 1%Q; lra).
  assert (inject_Z n' < inject_Z (n + 1))%Q as H2
    by (rewrite inject_Z_plus; change (inject_Z 1) with 1%Q; lra).
  rewrite <- Zlt_Qlt in H1, H2. lia.
Qed.

Lemma nearest_floor (num den : Z) :
  0 < den →
  let n := (2 * num * 10 ^ 2 + den) / (2 * den) in
  2 * n * den - den <= 200 * num < 2 * n * den + den.
Proof.
  intros Hden n. subst n. change (10 ^ 2) with 100.
  pose proof (Z.div_mod (2 * num * 100 + den) (2 * den) ltac:(lia)) as Hdm.
  pose proof (Z.mod_pos_bound (2 * num * 100 + den) (2 * den) ltac:(lia)) as Hr.
  nia.
Qed.

Lemma positive_spec (x : number) :
  (0 <? x)%float = true →
  match Prim2SF x with
  | S754_finite s _ _ | S754_infinity s => s = false
  | _ => False
  end.
Proof.
  rewrite ltb_spec. change (Prim2SF 0) with (S754_zero false).
  by destruct (Prim2SF x) as [[]|[]| |[] ? ?].
Qed.

(** The amount that [Number(amount.toFixed(2))] yields for a positive
    amount is that amount rounded to two decimal places. *)
Lemma toFixed_rounded (x : number) :
  (0 <? x)%float = true → roundedToTwoDecimals x (ToNumber (toFixed x 2)).
Proof.
  intros Hpos%positive_spec. unfold roundedToTwoDecimals, toFixed.
  destruct (Prim2SF x) as [|s| |s m e] eqn:Hx; [done| |done|]; subst s.
  - unfold ToString. rewrite Hx. apply Prim2SF_inj. rewrite Hx. reflexivity.
  - cbn [app].
    assert (0 < denominator e) as Hden
      by (apply Z.pow_pos_nonneg; lia).
    assert (0 < numerator m e) as Hnum.
    { unfold numerator. pose proof (Z.pow_pos_nonneg 2 (Z.max 0 e)). lia. }
    pose proof (mathematicalValue_fraction x m e Hx) as Hq.
    destruct (Z.leb_spec (10 ^ 21 * denominator e) (numerator m e)) as [Hbig|Hsmall].
    + destruct (ToNumber_finiteToString x m e Hx Hbig) as [He ->].
      assert (denominator e = 1) as Hone
        by (unfold denominator; rewrite Z.max_l by lia; done).
      assert (numerator m e = Zpos m * 2 ^ e) as Hn
        by (unfold numerator; rewrite Z.max_r by lia; done).
      exists (numerator m e * 100). split; [|split].
      * apply (nearestHundredths_quotient _ _ _ _ Hden Hq). lia.
      * symmetry. rewrite Hn. by apply NumberValue_exact.
      * intros Hlt. rewrite Hone in Hbig.
        assert (2 ^ 53 < 10 ^ 21 * 1 * 100) by (by vm_compute). lia.
    + exists ((2 * numerator m e * 10 ^ Z.of_nat 2 + denominator e) / (2 * denominator e)).
      assert (0 <= (2 * numerator m e * 10 ^ Z.of_nat 2 + denominator e)
                   / (2 * denominator e)) as Hn by (apply Z.div_pos; lia).
      rewrite ToNumber_fixedNotation by done.
      split; [|split].
      * apply (nearestHundredths_quotient _ _ _ _ Hden Hq).
        by apply nearest_floor.
      * done.
      * intros Hlt. by apply NumberValue_hundredths.
Qed.

End DecimalNotation.

(** ** The stored amount *)

Section Stored.
Context {Category PaymentMethod : Type}.
Variable parseFloat : jsstring → number.
Variable todayIso : jsstring.
Variable Food : Category.
Variable Card : PaymentMethod.
Context {S : Type} `{!ExpenseStore Category PaymentMethod S}.

Local Abbreviation State := (State Category PaymentMethod S).
Local Abbreviation submit :=
  (handleSubmit parseFloat toFixed ToNumber todayIso Food Card).

(** C9: what an accepted submission stores, with [toFixed] and [Number] as
    ECMAScript defines them. The amount is the parsed amount, a positive
    number, rounded to two decimal places: for the integer [n] with
    [n - 1/2 <= 100 * amount < n + 1/2] it is the Number value for [n / 100],
    which is [n / 100] in binary64 arithmetic while [n < 2^53]; an infinite
    amount is stored as it is. The description is the one typed, without the
    white space around it; notes of white space only are stored as absent,
    other notes without the white space around them. *)
Theorem handleSubmit_stored (st : State) :
  accepted parseFloat (form st) →
  let amount := parseFloat (Form.amount (form st)) in
  ∃ input, store (submit st) = addExpense input (store st)
    ∧ (0 <? amount)%float = true
    ∧ Input.amount input = ToNumber (toFixed amount 2)
    ∧ roundedToTwoDecimals amount (Input.amount input)
    ∧ (∃ pre post,
         Form.description (form st) = pre ++ Input.description input ++ post
         ∧ blank pre ∧ blank post)
    ∧ (∀ c, head (Input.description input) = Some c ∨
            last (Input.description input) = Some c → isWhiteSpace c = false)
    ∧ Input.description input ≠ []
    ∧ (blank (Form.notes (form st)) → Input.notes input = None)
    ∧ (¬ blank (Form.notes (form st)) →
       Input.notes input = Some (trim (Form.notes (form st)))).
Proof.
  intros Hacc amount.
  rewrite (handleSubmit_accepted parseFloat toFixed ToNumber todayIso Food Card
             st Hacc).
  destruct Hacc as (Hdesc & Hnan & Hle).
  destruct (trim_spec (Form.description (form st))) as (Hparts & Hhead & Hlast).
  assert ((0 <? amount)%float = true) as Hpos by (by apply leb_false_ltb).
  eexists. split; [reflexivity|]. cbn [Input.amount Input.description Input.notes].
  repeat split.
  - exact Hpos.
  - by apply toFixed_rounded.
  - exact Hparts.
  - intros c [Hc|Hc]; eauto.
  - by rewrite trim_nil_blank.
  - apply orUndefined_trim.
  - apply orUndefined_trim.
Qed.

End Stored.

(** ** The store *)

Section Persistence.
Context {Category PaymentMethod : Type}.
Variable newId : list (Expense Category PaymentMethod) → jsstring.
Variable seed : list (Expense Category PaymentMethod).

Local Abbreviation Input := (Input.t Category PaymentMethod).
Local Abbreviation add := (addExpense (ExpenseStore := localExpenseStore newId seed)).
Local Abbreviation listed := (expenses (ExpenseStore := localExpenseStore newId seed)).


End Persistence.

(** ** The dashboard at work *)

Example filteredExpenses_may_food :
  Demo.filtered Demo.may (Only (str "Food")) (str "2024-05") (str "DIN")
  = [Demo.expense "3" "Dinner" 0.3%float "Food" "2024-05-03"].
Proof. reflexivity. Qed.

Example totals_may :
  let filtered := Demo.filtered Demo.may All (str "all") [] in
  total filtered = 0.6000000000000001%float
  ∧ categories filtered = [(str "Food", 0.5%float); (str "Transport", 0.1%float)]
  ∧ topCategory filtered = Some (str "Food", 0.5%float)
  ∧ average filtered = 0.20000000000000004%float.
Proof. vm_compute. done. Qed.

(** C4, as stated, fails: with 0.2 and 0.3 spent on food and 0.1 on transport
    in between, the breakdown values 0.5 and 0.1 add up to 0.6, while the
    total, summed in the order of the list, is 0.6000000000000001. *)
Lemma breakdown_total_differs :
  let filtered := Demo.filtered Demo.may All (str "all") [] in
  (∀ c, breakdown filtered c = sum (amounts_of c filtered))
  ∧ sum (breakdown filtered <$> [str "Food"; str "Transport"]) ≠ total filtered
  ∧ sum (breakdown filtered <$> [str "Transport"; str "Food"]) ≠ total filtered
  ∧ sum (Rec.values (categories filtered)) ≠ total filtered.
Proof.
  split; [intros c; apply breakdown_sum|].
  vm_compute. repeat split; intros H; discriminate H.
Qed.

Example handleSubmit_coffee :
  let st := Demo.handleSubmit (Demo.dashboard (Demo.filled "  Coffee " "4.256" " ")) in
  expenses (store st)
  = mkExpense (str "4") (str "Coffee") 4.26%float (str "Food") (str "Card")
      (str "2024-05-03") None :: Demo.may
  ∧ localStorage (store st) = Some (expenses (store st))
  ∧ form st
    = Form.mk [] [] (str "Food") (str "Card") (str "2024-05-03") [].
Proof. vm_compute. done. Qed.


(** Three submissions that are turned down: a description of white space, an
    amount that is no number, and an amount of zero. *)
Lemma handleSubmit_turnedDown_witness :
  let unchanged st :=
    turnedDown Demo.parseFloat (form st) ∧ Demo.handleSubmit st = st in
  unchanged (Demo.dashboard (Demo.filled "  " "4.50" ""))
  ∧ unchanged (Demo.dashboard (Demo.filled "Tea" "abc" ""))
  ∧ unchanged (Demo.dashboard (Demo.filled "Tea" "0" "")).
Proof.
  assert (∀ st, turnedDown Demo.parseFloat (form st) →
                turnedDown Demo.parseFloat (form st) ∧ Demo.handleSubmit st = st)
    as Happly.
  { intros st Hdown. split; [exact Hdown|].
    exact (proj1 (handleSubmit_turnedDown Demo.parseFloat Demo.toFixed
                    Demo.ToNumber Demo.todayIso (str "Food") (str "Card")
                    st Hdown)). }
  split; [|split]; apply Happly.
  - left. vm_compute. repeat constructor.
  - right. left. vm_compute. reflexivity.
  - right. right. vm_compute. reflexivity.
Defined.

Lemma accepted_coffee :
  accepted Demo.parseFloat
    (form (Demo.dashboard (Demo.filled "  Coffee " "4.256" " "))).
Proof.
  split; [|split].
  - intros Hb. apply (proj2 (trim_nil_blank _)) in Hb.
    vm_compute in Hb. discriminate Hb.
  - vm_compute. reflexivity.
  - vm_compute. reflexivity.
Defined.

Lemma handleSubmit_addExpense_witness :
  let st := Demo.dashboard (Demo.filled "  Coffee " "4.256" " ") in
  accepted Demo.parseFloat (form st)
  ∧ store (Demo.handleSubmit st)
    = addExpense
        (Input.mk (str "Coffee") 4.26%float (str "Food") (str "Card")
           (str "2024-05-03") None)
        (store st).
Proof.
  split; [exact accepted_coffee|].
  exact (proj1 (handleSubmit_addExpense Demo.parseFloat Demo.toFixed Demo.ToNumber
                  Demo.todayIso (str "Food") (str "Card") _ accepted_coffee)).
Defined.

(** What the built-ins write and read. 1.005 is a number below 1.005, and
    0.001 has no hundredths; from 10^21 on, [toFixed] writes an exponent. *)
Example toFixed_notations :
  toFixed 4.256%float 2 = str "4.26"
  ∧ toFixed 1.005%float 2 = str "1.00"
  ∧ toFixed 0.001%float 2 = str "0.00"
  ∧ toFixed 1234.5%float 2 = str "1234.50"
  ∧ toFixed 1e21%float 2 = str "1e+21"
  ∧ toFixed 1.5e25%float 2 = str "1.5e+25"
  ∧ toFixed infinity 2 = str "Infinity".
Proof. vm_compute. done. Qed.

Example ToNumber_notations :
  ToNumber (str "4.26") = 4.26%float
  ∧ ToNumber (str "1234.50") = 1234.5%float
  ∧ ToNumber (str " 12 ") = 12%float
  ∧ ToNumber (str "1.5e+25") = 1.5e25%float
  ∧ ToNumber (str "0x1F") = 31%float
  ∧ ToNumber (str "") = 0%float
  ∧ ToNumber (str "Infinity") = infinity
  ∧ PrimFloat.is_nan (ToNumber (str "12px")) = true.
Proof. vm_compute. done. Qed.

(** The Number value for a decimal is the one that Rocq reads the decimal
    as, also halfway between two numbers and at the ends of the range. *)
Example NumberValue_nearest :
  NumberValue 1 10 = 0.1%float
  ∧ NumberValue 426 100 = 4.26%float
  ∧ NumberValue 9007199254740993 1 = 9007199254740992%float
  ∧ NumberValue 9007199254740995 1 = 9007199254740996%float
  ∧ decimalValue 1 23 = 1e23%float
  ∧ decimalValue 5 (-324) = 5e-324%float
  ∧ decimalValue 2 (-324) = 0%float
  ∧ decimalValue 17976931348623157 292 = 1.7976931348623157e308%float
  ∧ decimalValue 18 307 = infinity.
Proof. vm_compute. done. Qed.

(** An amount below half a hundredth is accepted, and stored as 0. *)
Example stored_amount_zero :
  (0.004 <=? 0)%float = false ∧ ToNumber (toFixed 0.004%float 2) = 0%float.
Proof. vm_compute. done. Qed.

(** 4.256 lies between 425.5 and 426.5 hundredths. *)
Example nearestHundredths_coffee :
  nearestHundredths (mathematicalValue 4.256%float) 426.
Proof. vm_compute. split; [intros H | reflexivity]; discriminate H. Qed.

(** The form with 4.256 for an amount: the amount stored is 4.26, that is
    426 / 100 in binary64 arithmetic, and the notes, of white space only, are
    absent. *)
Lemma handleSubmit_stored_witness :
  let st := Demo.dashboard (Demo.filled "  Coffee " "4.256" " ") in
  accepted Demo.parseFloat (form st)
  ∧ ∃ input,
      store (handleSubmit Demo.parseFloat toFixed ToNumber Demo.todayIso
               (str "Food") (str "Card") st)
      = addExpense input (store st)
      ∧ Input.amount input = 4.26%float
      ∧ roundedToTwoDecimals 4.256%float 4.26%float
      ∧ 4.26%float = (ofInteger 426 / 100)%float
      ∧ Input.notes input = None.
Proof.
  split; [exact accepted_coffee|].
  destruct (handleSubmit_stored Demo.parseFloat Demo.todayIso (str "Food")
              (str "Card") _ accepted_coffee)
    as (input & Hstore & _ & Hamount & Hrounded & _ & _ & _ & Hblank & _).
  assert (Demo.parseFloat (str "4.256") = 4.256%float) as Hparsed
    by (vm_compute; reflexivity).
  assert (ToNumber (toFixed 4.256%float 2) = 4.26%float) as Hcalc
    by (vm_compute; reflexivity).
  change (Input.amount input = ToNumber (toFixed (Demo.parseFloat (str "4.256")) 2))
    in Hamount.
  change (roundedToTwoDecimals (Demo.parseFloat (str "4.256")) (Input.amount input))
    in Hrounded.
  rewrite Hparsed in Hamount, Hrounded. rewrite Hcalc in Hamount.
  rewrite Hamount in Hrounded.
  exists input. split; [exact Hstore|]. split; [exact Hamount|].
  split; [exact Hrounded|]. split; [vm_compute; reflexivity|].
  apply Hblank. repeat constructor.
Defined.

(** In May, no expense passes a search for "tea": the average is 0; all
    three pass without filters, and the divisor of the average is 3. *)
Lemma average_filtered_witness :
  average (Demo.filtered Demo.may All (str "2024-05") (str "tea")) = 0%float
  ∧ average (Demo.filtered Demo.may All (str "all") [])
    = (0.6000000000000001 / 3)%float.
Proof.
  pose proof (average_filtered Demo.getMonthKey Demo.toLowerCase Demo.may All
                (str "2024-05") (str "tea")) as (Hempty & _).
  pose proof (average_filtered Demo.getMonthKey Demo.toLowerCase Demo.may All
                (str "all") []) as (_ & Hsome & _).
  unfold Demo.filtered. split.
  - apply Hempty. reflexivity.
  - refine (eq_trans (Hsome _) _); [vm_compute; lia | vm_compute; reflexivity].
Defined.

(** The two expenses on food make up the whole total of the food filter. *)
Lemma breakdown_group_by_witness :
  let filtered := Demo.filtered Demo.may (Only (str "Food")) (str "all") [] in
  (∀ e, e ∈ filtered → category e = str "Food")
  ∧ breakdown filtered (str "Food") = total filtered
  ∧ breakdown filtered (str "Transport") = 0%float.
Proof.
  pose proof (breakdown_group_by Demo.getMonthKey Demo.toLowerCase Demo.may
                (Only (str "Food")) (str "all") []) as (_ & Hnone & Hall).
  assert (Forall (λ e, category e = str "Food")
            (Demo.filtered Demo.may (Only (str "Food")) (str "all") [])) as Hfood
    by (vm_compute; repeat constructor).
  split; [by apply Forall_forall|]. split.
  - apply Hall. by apply Forall_forall.
  - apply Hnone. intros e He Hc.
    apply (proj1 (Forall_forall _ _) Hfood) in He.
    pose proof (eq_trans (eq_sym He) Hc) as Habs.
    vm_compute in Habs. discriminate Habs.
Defined.


(** * Further properties *)

(** ** The order of strings and the default sort *)

Lemma lessThan_irrefl (s : jsstring) : lessThan s s = false.
Proof.
  induction s as [|a s IH]; simpl; [done|].
  by rewrite N.ltb_irrefl, N.eqb_refl, IH.
Qed.

Lemma lessThan_cons (a b : N) (s t : jsstring) :
  lessThan (a :: s) (b :: t) = true ↔ (a < b)%N ∨ a = b ∧ lessThan s t = true.
Proof.
  simpl. by rewrite orb_true_iff, andb_true_iff, N.ltb_lt, N.eqb_eq.
Qed.

Lemma lessThan_trans (s t u : jsstring) :
  lessThan s t = true → lessThan t u = true → lessThan s u = true.
Proof.
  revert t u. induction s as [|a s IH]; intros [|b t] [|c u]; try done.
  rewrite !lessThan_cons. intros [Hab|[-> Hst]] [Hbc|[-> Htu]].
  - left. lia.
  - by left.
  - by left.
  - right. split; [done|]. by apply IH with t.
Qed.

Lemma lessThan_asym (s t : jsstring) :
  lessThan s t = true → lessThan t s = false.
Proof.
  intros Hst. destruct (lessThan t s) eqn:Hts; [|done].
  by rewrite <- (lessThan_irrefl s), <- (lessThan_trans s t s Hst Hts).
Qed.

Lemma lessThan_total (s t : jsstring) :
  lessThan s t = false → lessThan t s = false → s = t.
Proof.
  revert t. induction s as [|a s IH]; intros [|b t]; try done.
  intros Hst Hts.
  destruct (N.lt_trichotomy a b) as [Hab|[->|Hab]].
  - assert (lessThan (a :: s) (b :: t) = true) by (apply lessThan_cons; by left).
    congruence.
  - f_equal. apply IH.
    + destruct (lessThan s t) eqn:H; [|done].
      assert (lessThan (b :: s) (b :: t) = true) by (apply lessThan_cons; by right).
      congruence.
    + destruct (lessThan t s) eqn:H; [|done].
      assert (lessThan (b :: t) (b :: s) = true) by (apply lessThan_cons; by right).
      congruence.
  - assert (lessThan (b :: t) (a :: s) = true) by (apply lessThan_cons; by left).
    congruence.
Qed.

(** Not less one way, then the other way round or the same string. *)
Lemma lessThan_false (s t : jsstring) :
  lessThan s t = false → lessThan t s = true ∨ s = t.
Proof.
  intros Hst. destruct (lessThan t s) eqn:Hts; [by left|].
  right. by apply lessThan_total.
Qed.

(** The default sort moves [x] behind [y] exactly when [y < x]. *)
Lemma sortCompare_default (x y : jsstring) :
  (0 <? sortCompare defaultCompare x y)%float = lessThan y x.
Proof.
  unfold sortCompare, defaultCompare.
  destruct (lessThan x y) eqn:Hxy.
  - by rewrite (lessThan_asym x y Hxy).
  - by destruct (lessThan y x).
Qed.

Section SortAny.
Context {A : Type}.

Lemma sort_insert_Permutation (cmp : A → A → number) (x : A) (l : list A) :
  sort_insert cmp x l ≡ₚ x :: l.
Proof.
  induction l as [|y l IH]; simpl; [done|].
  destruct (0 <? sortCompare cmp x y)%float; [|done].
  rewrite IH. apply Permutation_swap.
Qed.

Lemma sort_Permutation (cmp : A → A → number) (l : list A) : sort cmp l ≡ₚ l.
Proof.
  induction l as [|x l IH]; [done|].
  unfold sort. simpl. fold (sort cmp l). by rewrite sort_insert_Permutation, IH.
Qed.

Lemma StronglySorted_reverse (R : A → A → Prop) (l : list A) :
  StronglySorted R l → StronglySorted (flip R) (reverse l).
Proof.
  induction 1 as [|x l Hs IH Hx]; [constructor|].
  rewrite reverse_cons. apply StronglySorted_app.
  split; [|split; [done | repeat constructor]].
  intros y z Hy ->%list_elem_of_singleton. unfold flip.
  rewrite elem_of_reverse in Hy. by apply (proj1 (Forall_forall _ _) Hx).
Qed.

Lemma StronglySorted_filter (R : A → A → Prop) (P : A → Prop)
    `{∀ x, Decision (P x)} (l : list A) :
  StronglySorted R l → StronglySorted R (filter P l).
Proof.
  induction 1 as [|x l Hs IH Hx]; [constructor|].
  rewrite filter_cons. destruct (decide (P x)); [|done].
  constructor; [done|]. apply Forall_forall. intros y Hy%list_elem_of_filter.
  apply (proj1 (Forall_forall _ _) Hx), Hy.
Qed.

End SortAny.

(** [sort()] leaves strings in ascending order. *)
Lemma sort_default_sorted (l : list jsstring) :
  StronglySorted (λ s t, lessThan t s = false) (sort defaultCompare l).
Proof.
  induction l as [|x l IH]; [constructor|].
  unfold sort. simpl. fold (sort defaultCompare l).
  induction IH as [|y k Hk IHk Hy]; simpl; [repeat constructor|].
  rewrite sortCompare_default. destruct (lessThan y x) eqn:Hyx.
  - constructor; [done|]. apply Forall_forall. intros z Hz.
    rewrite sort_insert_Permutation in Hz. apply elem_of_cons in Hz as [->|Hz].
    + by apply lessThan_asym.
    + by apply (proj1 (Forall_forall _ _) Hy).
  - constructor; [by constructor|]. constructor; [done|].
    apply Forall_forall. intros z Hz.
    pose proof (proj1 (Forall_forall _ _) Hy z Hz) as Hzy. simpl in Hzy.
    destruct (lessThan z x) eqn:Hzx; [|done].
    destruct (lessThan_false _ _ Hzy) as [Hyz| ->]; [|congruence].
    by rewrite (lessThan_trans y z x Hyz Hzx) in Hyx.
Qed.

(** ** Sets of strings *)

Lemma add_elem (x y : jsstring) (set : StringSet.t) :
  y ∈ StringSet.add x set ↔ y = x ∨ y ∈ set.
Proof.
  unfold StringSet.add. destruct (decide (x ∈ set)) as [Hx|Hx].
  - split; [by right | by intros [->|?]].
  - rewrite elem_of_app, list_elem_of_singleton. tauto.
Qed.

Lemma add_NoDup (x : jsstring) (set : StringSet.t) :
  NoDup set → NoDup (StringSet.add x set).
Proof.
  intros Hset. unfold StringSet.add. destruct (decide (x ∈ set)) as [Hx|Hx]; [done|].
  apply NoDup_app. split; [done|]. split; [|apply NoDup_singleton].
  by intros y Hy ->%list_elem_of_singleton.
Qed.

Lemma filter_ext_elem {A : Type} (P Q : A → Prop)
    `{!∀ x, Decision (P x), !∀ x, Decision (Q x)} (l : list A) :
  (∀ x, x ∈ l → P x ↔ Q x) → filter P l = filter Q l.
Proof.
  induction l as [|a l IH]; intros Hext; [done|].
  rewrite !filter_cons, IH by (intros x Hx; apply Hext; by right).
  destruct (decide (P a)) as [Ha|Ha].
  - rewrite decide_True; [done|]. apply Hext; [left | done].
  - rewrite decide_False; [done|]. intros HQ. apply Ha, Hext; [left | done].
Qed.

(** Adding the elements of an array without repetition to a set appends
    those the set does not hold. *)
Lemma add_all_NoDup (array : list jsstring) (set : StringSet.t) :
  NoDup array →
  fold_left (λ set x, StringSet.add x set) array set
  = set ++ filter (λ x, x ∉ set) array.
Proof.
  intros Harray. revert set.
  induction Harray as [|x array Hx Harray IH]; intros set; simpl.
  - by rewrite app_nil_r.
  - rewrite IH, filter_cons. unfold StringSet.add.
    destruct (decide (x ∈ set)) as [Hin|Hin].
    + by rewrite decide_False by tauto.
    + rewrite decide_True by done. rewrite <- app_assoc. simpl. do 2 f_equal.
      apply filter_ext_elem. intros y Hy.
      rewrite elem_of_app, list_elem_of_singleton.
      split; [tauto|]. intros Hys [?| ->]; done.
Qed.

(** ** The month options *)

Section MonthOptions.
Context {Category PaymentMethod : Type} `{EqDecision Category}.
Variable getMonthKey : jsstring → jsstring.
Variable toLowerCase : jsstring → jsstring.
Variable todayIso : jsstring.

Local Abbreviation Expense := (Expense Category PaymentMethod).
Local Abbreviation options := (buildMonthOptions getMonthKey todayIso).

(** The set [unique] that [buildMonthOptions] fills. *)
Local Abbreviation uniqueMonths :=
  (fold_left
     (λ unique (expense : Expense),
        StringSet.add (getMonthKey (date expense)) unique)).

Lemma uniqueMonths_NoDup (expenses : list Expense) (set : StringSet.t) :
  NoDup set → NoDup (uniqueMonths expenses set).
Proof.
  revert set. induction expenses as [|e l IH]; intros set Hset; simpl; [done|].
  by apply IH, add_NoDup.
Qed.

Lemma uniqueMonths_elem (expenses : list Expense) (set : StringSet.t) (m : jsstring) :
  m ∈ uniqueMonths expenses set
  ↔ m ∈ set ∨ ∃ e, e ∈ expenses ∧ getMonthKey (date e) = m.
Proof.
  revert set. induction expenses as [|e l IH]; intros set; simpl.
  - split; [by left|]. by intros [?|(e & ?%elem_of_nil & _)].
  - rewrite IH, add_elem. setoid_rewrite elem_of_cons. split.
    + intros [[->|?]|(e' & ? & ?)]; eauto.
    + intros [?|(e' & [->|?] & <-)]; eauto.
Qed.

(** The options are the current month, then the months of the expenses from
    the latest down, the current month left out. *)
Lemma buildMonthOptions_eq (expenses : list Expense) :
  options expenses
  = getMonthKey todayIso
    :: filter (λ m, m ≠ getMonthKey todayIso)
         (reverse (sort defaultCompare (uniqueMonths expenses []))).
Proof.
  unfold buildMonthOptions, StringSet.values, StringSet.of_array, StringSet.empty.
  simpl. rewrite add_all_NoDup.
  - simpl. f_equal. apply filter_ext_elem. intros m _. split.
    + intros Hn ->. apply Hn, add_elem. by left.
    + by intros Hn [->|?%elem_of_nil]%add_elem.
  - rewrite reverse_Permutation, sort_Permutation.
    apply uniqueMonths_NoDup. constructor.
Qed.

Lemma months_elem (expenses : list Expense) (m : jsstring) :
  m ∈ reverse (sort defaultCompare (uniqueMonths expenses []))
  ↔ ∃ e, e ∈ expenses ∧ getMonthKey (date e) = m.
Proof.
  rewrite elem_of_reverse, sort_Permutation, uniqueMonths_elem.
  split; [by intros [?%elem_of_nil|?] | by right].
Qed.

(** X1: the first month option is the current month, which is the month
    filter the component mounts with. *)
Theorem buildMonthOptions_head {S : Type} (Food : Category) (Card : PaymentMethod)
    (store : S) (expenses : list Expense) :
  head (options expenses)
  = Some (monthFilter (initialState getMonthKey todayIso Food Card store)).
Proof. by rewrite buildMonthOptions_eq. Qed.

(** X2: a month is offered exactly when it is the current month or the month
    key of some expense. *)
Theorem buildMonthOptions_elem (expenses : list Expense) (m : jsstring) :
  m ∈ options expenses
  ↔ m = getMonthKey todayIso ∨ ∃ e, e ∈ expenses ∧ getMonthKey (date e) = m.
Proof.
  rewrite buildMonthOptions_eq, elem_of_cons, list_elem_of_filter, months_elem.
  destruct (decide (m = getMonthKey todayIso)); tauto.
Qed.

(** X3: no month is offered twice. *)
Theorem buildMonthOptions_NoDup (expenses : list Expense) : NoDup (options expenses).
Proof.
  rewrite buildMonthOptions_eq. apply NoDup_cons. split.
  - by intros [? _]%list_elem_of_filter.
  - apply NoDup_filter. rewrite reverse_Permutation, sort_Permutation.
    apply uniqueMonths_NoDup. constructor.
Qed.

(** X4: after the current month, the options run from the latest month key
    down, in the strict order of strings. *)
Theorem buildMonthOptions_descending (expenses : list Expense) :
  StronglySorted (λ m m', lessThan m' m = true) (tail (options expenses)).
Proof.
  rewrite buildMonthOptions_eq. simpl.
  apply StronglySorted_filter.
  assert (NoDup (reverse (sort defaultCompare (uniqueMonths expenses [])))) as Hnd.
  { rewrite reverse_Permutation, sort_Permutation.
    apply uniqueMonths_NoDup. constructor. }
  pose proof (StronglySorted_reverse _ _
                (sort_default_sorted (uniqueMonths expenses []))) as Hs.
  induction Hs as [|m l Hs IH Hm]; [constructor|].
  apply NoDup_cons in Hnd as [Hml Hnd].
  constructor; [by apply IH|].
  apply Forall_forall. intros m' Hm'.
  pose proof (proj1 (Forall_forall _ _) Hm m' Hm') as Hle. unfold flip in Hle.
  destruct (lessThan_false _ _ Hle) as [Hlt| ->]; [done|].
  by destruct Hml.
Qed.

(** X5: every expense is listed under the option of its own month, with all
    categories and no search term; so an option other than the current month
    never leads to an empty list. *)
Theorem buildMonthOptions_filtered (expenses : list Expense) :
  (∀ e, e ∈ expenses →
     getMonthKey (date e) ∈ options expenses
     ∧ e ∈ filteredExpenses getMonthKey toLowerCase expenses All
             (getMonthKey (date e)) [])
  ∧ (∀ m, m ∈ options expenses → m ≠ getMonthKey todayIso →
       filteredExpenses getMonthKey toLowerCase expenses All m [] ≠ []).
Proof.
  assert (∀ e, e ∈ expenses →
            e ∈ filteredExpenses getMonthKey toLowerCase expenses All
                  (getMonthKey (date e)) []) as Hlisted.
  { intros e He. unfold filteredExpenses.
    apply list_elem_of_In, filter_In. split; [by apply list_elem_of_In|].
    unfold matchesFilters. simpl.
    by rewrite (bool_decide_eq_true_2 (getMonthKey (date e) = getMonthKey (date e))),
      orb_true_r. }
  rewrite buildMonthOptions_eq. split.
  - intros e He. split; [|by apply Hlisted].
    destruct (decide (getMonthKey (date e) = getMonthKey todayIso)) as [->|Hm];
      [left|right].
    apply list_elem_of_filter. split; [done|]. apply months_elem. eauto.
  - intros m [?|[_ (e & He & <-)%months_elem]%list_elem_of_filter]%elem_of_cons Hm;
      [done|].
    intros Hnil. specialize (Hlisted e He). rewrite Hnil in Hlisted.
    by apply elem_of_nil in Hlisted.
Qed.

End MonthOptions.

(** ** The form, submitted twice *)

Section SubmitTwice.
Context {Category PaymentMethod : Type}.
Variable parseFloat : jsstring → number.
Variable toFixed : number → nat → jsstring.
Variable ToNumber : jsstring → number.
Variable todayIso : jsstring.
Variable Food : Category.
Variable Card : PaymentMethod.
Context {S : Type} `{!ExpenseStore Category PaymentMethod S}.

Local Abbreviation submit :=
  (handleSubmit parseFloat toFixed ToNumber todayIso Food Card).

(** X6: a second submission right after the first changes nothing: the form
    an accepted submission leaves has an empty description, which is turned
    down; no expense is recorded twice. *)
Theorem handleSubmit_idempotent (st : State Category PaymentMethod S) :
  submit (submit st) = submit st
  ∧ expenses (store (submit (submit st))) = expenses (store (submit st)).
Proof.
  assert (submit (submit st) = submit st) as Hsame; [|by rewrite Hsame].
  unfold handleSubmit at 2.
  destruct (negb (truthy (trim (Form.description (form st)))) || _ || _) eqn:Hg.
  - unfold handleSubmit. by rewrite Hg.
  - unfold handleSubmit, setForm, callStore. cbn. by rewrite Hg.
Qed.

End SubmitTwice.

(** ** The table and the record of categories *)

Section Table.
Context {Category PaymentMethod : Type} `{EqDecision Category}.
Variable getMonthKey : jsstring → jsstring.
Variable toLowerCase : jsstring → jsstring.

Local Abbreviation Expense := (Expense Category PaymentMethod).
Local Abbreviation filtered_by := (filteredExpenses getMonthKey toLowerCase).

(** X7: the table has min(6, n) rows for n filtered expenses; the row "No
    expenses match your filters yet." stands in exactly when no expense
    passes the filters. *)
Theorem recentExpenses_rows (expenses : list Expense)
    (categoryFilter : CategoryFilter Category) (monthFilter searchTerm : jsstring) :
  let filtered := filtered_by expenses categoryFilter monthFilter searchTerm in
  length (recentExpenses filtered) = length filtered `min` 6
  ∧ (length (recentExpenses filtered) = 0 ↔ filtered = []).
Proof.
  intros filtered. unfold recentExpenses. rewrite length_take. split; [lia|].
  destruct filtered; simpl; [done|]. split; [lia | done].
Qed.

Lemma filter_sublist {A : Type} (f : A → bool) (l : list A) :
  List.filter f l `sublist_of` l.
Proof.
  induction l as [|x l IH]; simpl; [done|].
  destruct (f x); by constructor.
Qed.

(** X13: the rows of the table have distinct keys when the expenses of the
    store have distinct ids. *)
Theorem recentExpenses_keys (expenses : list Expense)
    (categoryFilter : CategoryFilter Category) (monthFilter searchTerm : jsstring) :
  NoDup (id <$> expenses) →
  NoDup (id <$> recentExpenses
                  (filtered_by expenses categoryFilter monthFilter searchTerm)).
Proof.
  intros Hids. refine (sublist_NoDup _ _ Hids _).
  apply fmap_sublist. unfold recentExpenses, filteredExpenses.
  etransitivity; [apply sublist_take | apply filter_sublist].
Qed.

Lemma firstOccurrences_elem {A : Type} `{EqDecision A} (l : list A) (x : A) :
  x ∈ firstOccurrences l ↔ x ∈ l.
Proof.
  induction l as [|y l IH]; simpl; [done|].
  rewrite !elem_of_cons, list_elem_of_filter, IH.
  destruct (decide (x = y)); tauto.
Qed.

Lemma firstOccurrences_snoc {A : Type} `{EqDecision A} (l : list A) (x : A) :
  firstOccurrences (l ++ [x])
  = if decide (x ∈ l) then firstOccurrences l else firstOccurrences l ++ [x].
Proof.
  induction l as [|y l IH]; [done|].
  cbn [app firstOccurrences]. rewrite IH.
  destruct (decide (x ∈ l)) as [Hx|Hx].
  - rewrite decide_True; [done | by right].
  - rewrite filter_app, filter_cons, filter_nil.
    destruct (decide (x ≠ y)) as [Hxy|Hxy], (decide (x ∈ y :: l)) as [Hin|Hin].
    + by apply elem_of_cons in Hin as [?|?].
    + done.
    + by rewrite app_nil_r.
    + destruct Hin. destruct (decide (x = y)) as [->|?]; [left | done].
Qed.

(** X8: the record that [totals] builds has one property for each category
    of the filtered expenses, in the order in which the categories first
    occur. *)
Theorem categories_keys_order (filtered : list Expense) :
  Rec.keys (categories filtered) = firstOccurrences (category <$> filtered)
  ∧ NoDup (Rec.keys (categories filtered)).
Proof.
  split; [|apply categories_NoDup].
  induction filtered as [|e l IH] using rev_ind; [done|].
  rewrite categories_snoc, keys_set, fmap_app.
  change (category <$> [e]) with [category e].
  rewrite firstOccurrences_snoc, IH.
  destruct (decide (category e ∈ firstOccurrences (category <$> l))) as [Hin|Hin].
  - rewrite decide_True; [done | by apply firstOccurrences_elem].
  - rewrite decide_False; [done|]. by rewrite <- firstOccurrences_elem.
Qed.

End Table.

(** ** Ties at the top, the bars and NaN *)

Section MoreBinary64.
Local Open Scope float_scope.

Lemma eqb_leb (a b : float) : (a =? b) = true → (a <=? b) = true.
Proof.
  rewrite FloatAxioms.eqb_spec, FloatAxioms.leb_spec. unfold SFeqb, SFleb.
  by destruct (SFcompare (Prim2SF a) (Prim2SF b)) as [[]|].
Qed.

(** After a step of [Math.max] the highest value bounds the old one and the
    new value. *)
Lemma maxStep_bounds (highest value : float) :
  is_nan highest = false → is_nan value = false →
  is_nan (maxStep highest value) = false
  ∧ (highest <=? maxStep highest value) = true
  ∧ (value <=? maxStep highest value) = true.
Proof.
  intros Hh Hv. unfold maxStep.
  destruct (isPositiveZero value && isNegativeZero highest) eqn:Hz.
  - apply andb_true_iff in Hz as [[Hv0 _]%andb_true_iff [Hh0 _]%andb_true_iff].
    apply eqb_leb in Hv0, Hh0.
    destruct (0 <? value) eqn:Hlt.
    + split; [done|]. split; [|by apply leb_refl].
      apply leb_trans with 0; [done | by apply ltb_leb].
    + done.
  - destruct (highest <? value) eqn:Hlt.
    + split; [done|]. split; [by apply ltb_leb | by apply leb_refl].
    + split; [done|]. split; [by apply leb_refl | by apply ltb_false_leb].
Qed.

Lemma fold_maxStep_bounds (values : list float) (highest : float) :
  is_nan highest = false → Forall (λ v, is_nan v = false) values →
  is_nan (fold_left maxStep values highest) = false
  ∧ (highest <=? fold_left maxStep values highest) = true
  ∧ Forall (λ v, (v <=? fold_left maxStep values highest) = true) values.
Proof.
  intros Hh Hvs. revert highest Hh.
  induction Hvs as [|v values Hv Hvs IH]; intros highest Hh; simpl.
  - split; [done|]. split; [by apply leb_refl | constructor].
  - destruct (maxStep_bounds highest v Hh Hv) as (Hn & Hle & Hvle).
    destruct (IH _ Hn) as (Hn' & Hle' & Hall).
    split; [done|]. split; [by eapply leb_trans|].
    constructor; [by eapply leb_trans | done].
Qed.

(** [Math.max(1, ...values)] on values other than NaN: at least 1 and at
    least every value. *)
Lemma mathMax_one_bounds (values : list float) :
  Forall (λ v, is_nan v = false) values →
  is_nan (mathMax (1 :: values)) = false
  ∧ (1 <=? mathMax (1 :: values)) = true
  ∧ Forall (λ v, (v <=? mathMax (1 :: values)) = true) values.
Proof.
  intros Hvs. unfold mathMax.
  assert (existsb is_nan (1 :: values) = false) as ->.
  { simpl. change (is_nan 1) with false. simpl.
    induction Hvs as [|v values Hv _ IH]; simpl; [done|]. by rewrite Hv. }
  simpl. change (maxStep neg_infinity 1) with 1.
  by apply fold_maxStep_bounds.
Qed.

End MoreBinary64.

Section Ties.
Context {K : Type}.
Local Open Scope float_scope.

(** The entry at the head of the sorted array is the first one of the
    entries with the largest value: those in front of it are smaller. *)
Lemma head_sort_first (l : list (K * number)) (top : K * number) :
  (∀ kv, kv ∈ l → is_nan kv.2 = false) →
  head (sort (λ '(_, a) '(_, b), b - a) l) = Some top →
  ∃ pre post, l = pre ++ top :: post
    ∧ (∀ kv, kv ∈ pre → (kv.2 <? top.2) = true)
    ∧ (∀ kv, kv ∈ post → (kv.2 <=? top.2) = true).
Proof.
  revert top. induction l as [|x l IH]; intros top Hnan; [done|].
  unfold sort. simpl. fold (sort (λ '(_, a) '(_, b), b - a) l).
  rewrite head_sort_insert. intros [= <-].
  assert (∀ kv, kv ∈ l → is_nan kv.2 = false) as Hnan'
    by (intros kv Hkv; apply Hnan; by right).
  assert (is_nan x.2 = false) as Hx by (apply Hnan; left).
  destruct (head (sort (λ '(_, a) '(_, b), b - a) l)) as [h|] eqn:Hh.
  - destruct (head_sort_descending l h Hh) as [Hin Hmax].
    assert (is_nan h.2 = false) as Hhn by (by apply Hnan').
    rewrite sortCompare_descending by done.
    destruct (x.2 <? h.2) eqn:Hc.
    + destruct (IH h Hnan' eq_refl) as (pre & post & -> & Hpre & Hpost).
      exists (x :: pre), post. split; [done|]. split; [|done].
      intros kv [->|Hkv]%elem_of_cons; [done | by apply Hpre].
    + exists [], l. split; [done|]. split; [by intros kv ?%elem_of_nil|].
      intros kv Hkv. apply leb_trans with h.2; [by apply Hmax|].
      by apply ltb_false_leb.
  - assert (l = []) as ->.
    { destruct l as [|y l]; [done|]. exfalso.
      destruct (head_sort_nonempty (λ '(_, a) '(_, b), b - a) (y :: l))
        as [t Ht]; [done|]. congruence. }
    exists [], []. split; [done|]. by split; intros kv ?%elem_of_nil.
Qed.

End Ties.

Section Bars.
Context {Category PaymentMethod : Type} `{EqDecision Category}.

Local Abbreviation Expense := (Expense Category PaymentMethod).

Lemma categories_values_finite (filtered : list Expense) :
  (∀ e, e ∈ filtered → PrimFloat.is_finite (amount e) = true) →
  ∀ kv, kv ∈ categories filtered → PrimFloat.is_nan kv.2 = false.
Proof.
  intros Hfin [c v] Hin. simpl.
  rewrite (categories_entry _ _ _ Hin), breakdown_sum.
  by apply amounts_of_finite.
Qed.

(** X9: of the categories with the largest sum, the one that comes first in
    the record is the top category: the entries in front of it have smaller
    sums, those behind it sums that are not larger (amounts being finite). *)
Theorem topCategory_first_of_ties (filtered : list Expense)
    (c : Category) (v : number) :
  (∀ e, e ∈ filtered → PrimFloat.is_finite (amount e) = true) →
  topCategory filtered = Some (c, v) →
  ∃ pre post, Rec.entries (categories filtered) = pre ++ (c, v) :: post
    ∧ (∀ kv, kv ∈ pre → (kv.2 <? v)%float = true)
    ∧ (∀ kv, kv ∈ post → (kv.2 <=? v)%float = true).
Proof.
  intros Hfin Htop. unfold topCategory in Htop.
  apply (head_sort_first _ (c, v)); [|done].
  by apply categories_values_finite.
Qed.

(** X10: with finite amounts, the divisor [max] of the breakdown bars is at
    least 1 and at least the value of every category, and it is not zero. *)
Theorem breakdownMax_bounds (filtered : list Expense) :
  (∀ e, e ∈ filtered → PrimFloat.is_finite (amount e) = true) →
  (1 <=? breakdownMax filtered)%float = true
  ∧ (∀ c, (breakdown filtered c <=? breakdownMax filtered)%float = true)
  ∧ (breakdownMax filtered =? 0)%float = false.
Proof.
  intros Hfin. unfold breakdownMax.
  destruct (mathMax_one_bounds (Rec.values (categories filtered)))
    as (Hn & Hone & Hall).
  { apply Forall_forall. intros v ([c v'] & -> & Hin)%list_elem_of_fmap.
    by apply (categories_values_finite filtered Hfin (c, v')). }
  split; [done|]. split.
  - intros c. destruct (decide (c ∈ Rec.keys (categories filtered))) as [Hc|Hc].
    + apply categories_keys in Hc as (e & He & <-).
      apply (proj1 (Forall_forall _ _) Hall).
      apply list_elem_of_fmap. eexists. split; [|by apply categories_entry_of].
      done.
    + rewrite breakdown_sum, amounts_of_none.
      * by apply leb_trans with 1%float.
      * intros e He Hce. apply Hc, categories_keys. eauto.
  - destruct (_ =? 0)%float eqn:Hz; [|done].
    apply eqb_leb in Hz.
    by pose proof (leb_trans _ _ _ Hone Hz).
Qed.

(** X11: with finite amounts, neither the total nor the value of a category
    is NaN. *)
Theorem totals_not_nan (filtered : list Expense) :
  (∀ e, e ∈ filtered → PrimFloat.is_finite (amount e) = true) →
  PrimFloat.is_nan (total filtered) = false
  ∧ (∀ c, PrimFloat.is_nan (breakdown filtered c) = false).
Proof.
  intros Hfin. split.
  - rewrite total_sum. apply sum_from_not_nan; [done|].
    apply Forall_forall. intros a (e & -> & He)%list_elem_of_fmap. by apply Hfin.
  - intros c. rewrite breakdown_sum. by apply amounts_of_finite.
Qed.

End Bars.

(** ** The average *)

Section SpecDivision.
Variables prec emax : Z.
Hypothesis prec_pos : (0 < prec)%Z.
Local Open Scope Z_scope.

Local Abbreviation emin := (SpecFloat.emin prec emax).
Local Abbreviation fexp := (SpecFloat.fexp prec emax).

Lemma digits2_pos_le (p : positive) (k : Z) :
  Zpos p < 2 ^ k → Zpos (digits2_pos p) <= k.
Proof.
  intros Hp. pose proof (digits2_pos_bounds p) as [Hlo _].
  destruct (Z_lt_le_dec k (Zpos (digits2_pos p))) as [Hk|Hk]; [|done].
  exfalso. destruct (Z_lt_le_dec k 0) as [Hneg|Hnn].
  - rewrite Z.pow_neg_r in Hp by done. lia.
  - assert (2 ^ k <= 2 ^ (Zpos (digits2_pos p) - 1)) by (apply Z.pow_le_mono_r; lia).
    lia.
Qed.

Lemma shr_fexp_nonneg (m e : Z) (l : location) :
  0 <= m → 0 <= shr_m (fst (shr_fexp prec emax m e l)).
Proof.
  intros Hm. unfold shr_fexp, shr.
  destruct (fexp (Zdigits2 m + e) - e) as [|q|q]; simpl;
    rewrite ?iter_shr_1_m, ?shr_record_of_loc_m
      by (rewrite ?shr_record_of_loc_m; lia); try done.
  apply Z.div_pos; [done|]. apply Z.pow_pos_nonneg; lia.
Qed.

Lemma round_nearest_even_nonneg (m : Z) (l : location) :
  0 <= m → 0 <= round_nearest_even m l.
Proof. intros Hm. destruct l as [|[]]; simpl; try destruct (Z.even m); lia. Qed.

(** A rounded non-negative integer is never NaN. *)
Lemma binary_round_aux_not_nan (sx : bool) (m e : Z) (l : location) :
  0 <= m → binary_round_aux prec emax sx m e l ≠ S754_nan.
Proof.
  intros Hm. unfold binary_round_aux.
  pose proof (shr_fexp_nonneg m e l Hm) as Hm1.
  destruct (shr_fexp prec emax m e l) as [r1 e1]. simpl in Hm1.
  pose proof (round_nearest_even_nonneg _ (loc_of_shr_record r1) Hm1) as Hm2.
  pose proof (shr_fexp_nonneg _ e1 loc_Exact Hm2) as Hm3.
  destruct (shr_fexp prec emax _ e1 loc_Exact) as [r2 e2]. simpl in Hm3.
  destruct (shr_m r2) as [|p|p]; try lia; [done|].
  by destruct (e2 <=? emax - prec).
Qed.

(** Dividing by a finite number other than zero never yields NaN. *)
Lemma SFdiv_finite_not_nan (x : spec_float) (sy : bool) (my : positive) (ey : Z) :
  x ≠ S754_nan → SFdiv prec emax x (S754_finite sy my ey) ≠ S754_nan.
Proof.
  intros Nx. destruct x as [sx|sx| |sx mx ex]; try done.
  unfold SFdiv, SFdiv_core_binary.
  set (e' := Z.min _ _). set (s := ex - ey - e').
  set (m' := match s with Z.pos _ => Z.shiftl (Z.pos mx) s | 0 => Z.pos mx | _ => 0 end).
  assert (0 <= m') as Hm'.
  { subst m'. destruct s; [lia| |lia]. apply Z.shiftl_nonneg. lia. }
  pose proof (Z_div_mod m' (Zpos my) eq_refl) as Hdiv.
  destruct (Z.div_eucl m' (Z.pos my)) as [q r].
  apply binary_round_aux_not_nan. destruct Hdiv as [Hq Hr]. nia.
Qed.

Lemma shr_fexp_bounds (m e k : Z) (l : location) :
  0 < m → m < 2 ^ k → emin <= e →
  0 < shr_m (fst (shr_fexp prec emax m e l)) <= m
  ∧ emin <= snd (shr_fexp prec emax m e l) <= e + k.
Proof.
  intros Hm Hk He.
  destruct (shr_fexp_pos prec emax prec_pos m e l Hm He) as [Hpos Hemin].
  assert (0 <= k).
  { destruct (Z_lt_le_dec k 0); [|done]. rewrite Z.pow_neg_r in Hk by done. lia. }
  revert Hpos Hemin. unfold shr_fexp, shr.
  destruct m as [|p|p]; try lia. simpl Zdigits2.
  pose proof (digits2_pos_le p k Hk) as Hd.
  destruct (fexp (Zpos (digits2_pos p) + e) - e) as [|q|q] eqn:Hn; simpl.
  - rewrite shr_record_of_loc_m. lia.
  - rewrite iter_shr_1_m, shr_record_of_loc_m by (rewrite shr_record_of_loc_m; lia).
    intros Hpos Hemin. split; [|unfold SpecFloat.fexp in Hn; lia].
    split; [done|]. apply Z.div_le_upper_bound; [apply Z.pow_pos_nonneg; lia|].
    assert (0 < 2 ^ Z.pos q) by (apply Z.pow_pos_nonneg; lia). nia.
  - rewrite shr_record_of_loc_m. lia.
Qed.

Lemma round_nearest_even_le (m : Z) (l : location) :
  round_nearest_even m l <= m + 1.
Proof. destruct l as [|[]]; simpl; try destruct (Z.even m); lia. Qed.

(** A small positive integer multiple of [2 ^ e] rounds to a finite number. *)
Lemma binary_round_aux_finite (sx : bool) (m e k : Z) (l : location) :
  0 < m → m < 2 ^ k → emin <= e → e + 2 * k + 1 <= emax - prec →
  ∃ m' e', binary_round_aux prec emax sx m e l = S754_finite sx m' e'.
Proof.
  intros Hm Hk He Hmax. unfold binary_round_aux.
  destruct (shr_fexp_bounds m e k l Hm Hk He) as [[Hm1 Hm1'] [He1 He1']].
  destruct (shr_fexp prec emax m e l) as [r1 e1]. simpl in Hm1, Hm1', He1, He1'.
  pose proof (round_nearest_even_pos _ (loc_of_shr_record r1) Hm1) as Hm2.
  pose proof (round_nearest_even_le (shr_m r1) (loc_of_shr_record r1)) as Hm2'.
  assert (0 <= k).
  { destruct (Z_lt_le_dec k 0); [|done]. rewrite Z.pow_neg_r in Hk by done. lia. }
  assert (round_nearest_even (shr_m r1) (loc_of_shr_record r1) < 2 ^ (k + 1)) as Hk2.
  { rewrite Z.pow_add_r by lia. lia. }
  destruct (shr_fexp_bounds _ e1 (k + 1) loc_Exact Hm2 Hk2 He1) as [[Hm3 _] [_ He2]].
  destruct (shr_fexp prec emax _ e1 loc_Exact) as [r2 e2]. simpl in Hm3, He2.
  destruct (shr_m r2) as [|p|p]; try lia.
  rewrite (proj2 (Z.leb_le _ _)) by lia. eauto.
Qed.

Lemma binary_normalize_finite (m k : Z) :
  0 < m → m < 2 ^ k → emin <= - prec → 3 * (k + prec) <= emax - prec →
  ∃ m' e', binary_normalize prec emax m 0 false = S754_finite false m' e'.
Proof.
  intros Hm Hk Hemin Hmax. destruct m as [|p|p]; try lia. simpl.
  unfold binary_round.
  assert (0 <= k).
  { destruct (Z_lt_le_dec k 0); [|done]. rewrite Z.pow_neg_r in Hk by done. lia. }
  pose proof (digits2_pos_le p k Hk) as Hd.
  pose proof (digits2_pos_bounds p) as [_ Hdu].
  pose proof (fexp_emin prec emax (Zpos (digits2_pos p) + 0)) as Hf.
  unfold shl_align.
  destruct (fexp (Zpos (digits2_pos p) + 0) - 0) as [|q|q] eqn:Hn.
  - apply binary_round_aux_finite with k; lia.
  - apply binary_round_aux_finite with k; lia.
  - pose proof Hn as Hn'. unfold SpecFloat.fexp in Hn'.
    assert (Zpos q <= prec) by lia.
    apply binary_round_aux_finite with (k + Zpos q).
    + lia.
    + rewrite iter_xO_value, Z.pow_add_r by lia.
      assert (0 < 2 ^ Zpos q) by (apply Z.pow_pos_nonneg; lia). nia.
    + lia.
    + lia.
Qed.
End SpecDivision.

Section Average.
Context {Category PaymentMethod : Type}.
Local Open Scope float_scope.

Lemma of_length_finite (n : nat) :
  (0 < n)%nat → (Z.of_nat n < 2 ^ 63)%Z →
  ∃ m e, Prim2SF (of_length n) = S754_finite false m e.
Proof.
  intros Hn Hb. unfold of_length. rewrite of_uint63_spec.
  rewrite Uint63.of_Z_spec, Z.mod_small
    by (change Uint63.wB with (2 ^ 63)%Z; lia).
  apply binary_normalize_finite with 63%Z; done || lia.
Qed.

Lemma div_finite_not_nan (a b : float) (s : bool) (m : positive) (e : Z) :
  is_nan a = false → Prim2SF b = S754_finite s m e → is_nan (a / b) = false.
Proof.
  intros Ha%not_nan_spec Hb.
  destruct (is_nan (a / b)) eqn:Hn; [|done].
  apply is_nan_spec in Hn. rewrite div_spec, Hb in Hn.
  by apply SFdiv_finite_not_nan in Hn.
Qed.

(** X12: with finite amounts, the average is not NaN, whether or not an
    expense passes the filters (the list being an array, of a length below
    2^32). *)
Theorem average_not_nan (filtered : list (Expense Category PaymentMethod)) :
  (∀ e, e ∈ filtered → is_finite (amount e) = true) →
  (Z.of_nat (length filtered) < 2 ^ 32)%Z →
  is_nan (average filtered) = false.
Proof.
  intros Hfin Hlen. unfold average. case_decide as Hempty; [done|].
  destruct (of_length_finite (length filtered)) as (m & e & Hn); [lia| |].
  { assert (2 ^ 32 < 2 ^ 63)%Z by done. lia. }
  apply (div_finite_not_nan _ _ false m e); [|done].
  rewrite total_sum. apply sum_from_not_nan; [done|].
  apply Forall_forall. intros a (x & -> & Hx)%list_elem_of_fmap. by apply Hfin.
Qed.

End Average.

(** ** More of the dashboard at work *)

Example buildMonthOptions_may :
  buildMonthOptions Demo.getMonthKey (str "2024-03-09")
    (Demo.expense "0" "Rent" 700%float "Home" "2024-06-01" :: Demo.may)
  = [str "2024-03"; str "2024-06"; str "2024-05"].
Proof. vm_compute. reflexivity. Qed.

Lemma finite_tied :
  ∀ e, e ∈ Demo.tied → PrimFloat.is_finite (amount e) = true.
Proof. apply Forall_forall. vm_compute. repeat constructor. Defined.

Lemma finite_may :
  ∀ e, e ∈ Demo.may → PrimFloat.is_finite (amount e) = true.
Proof. apply Forall_forall. vm_compute. repeat constructor. Defined.

(** "Food" and "Transport" both sum to 5; "Food" comes first, behind "Fun". *)
Lemma topCategory_first_of_ties_witness :
  (∀ e, e ∈ Demo.tied → PrimFloat.is_finite (amount e) = true)
  ∧ topCategory Demo.tied = Some (str "Food", 5%float)
  ∧ ∃ pre post,
      Rec.entries (categories Demo.tied) = pre ++ (str "Food", 5%float) :: post
      ∧ (∀ kv, kv ∈ pre → (kv.2 <? 5)%float = true)
      ∧ (∀ kv, kv ∈ post → (kv.2 <=? 5)%float = true).
Proof.
  split; [exact finite_tied|].
  assert (topCategory Demo.tied = Some (str "Food", 5%float)) as Htop
    by (vm_compute; reflexivity).
  split; [exact Htop|].
  exact (topCategory_first_of_ties Demo.tied (str "Food") 5%float finite_tied Htop).
Defined.

Lemma breakdownMax_bounds_witness :
  (∀ e, e ∈ Demo.may → PrimFloat.is_finite (amount e) = true)
  ∧ (1 <=? breakdownMax Demo.may)%float = true
  ∧ (breakdown Demo.may (str "Food") <=? breakdownMax Demo.may)%float = true
  ∧ (breakdownMax Demo.may =? 0)%float = false.
Proof.
  split; [exact finite_may|].
  destruct (breakdownMax_bounds Demo.may finite_may) as (Hone & Hall & Hzero).
  split; [exact Hone|]. split; [exact (Hall (str "Food")) | exact Hzero].
Defined.

Lemma totals_not_nan_witness :
  (∀ e, e ∈ Demo.may → PrimFloat.is_finite (amount e) = true)
  ∧ PrimFloat.is_nan (total Demo.may) = false
  ∧ PrimFloat.is_nan (breakdown Demo.may (str "Transport")) = false.
Proof.
  split; [exact finite_may|].
  destruct (totals_not_nan Demo.may finite_may) as (Htotal & Hall).
  split; [exact Htotal | exact (Hall (str "Transport"))].
Defined.

Lemma average_not_nan_witness :
  (∀ e, e ∈ Demo.may → PrimFloat.is_finite (amount e) = true)
  ∧ (Z.of_nat (length Demo.may) < 2 ^ 32)%Z
  ∧ PrimFloat.is_nan (average Demo.may) = false.
Proof.
  assert (Z.of_nat (length Demo.may) < 2 ^ 32)%Z as Hlen by (vm_compute; reflexivity).
  split; [exact finite_may|]. split; [exact Hlen|].
  exact (average_not_nan Demo.may finite_may Hlen).
Defined.

Lemma recentExpenses_keys_witness :
  NoDup (id <$> Demo.may)
  ∧ NoDup (id <$> recentExpenses (Demo.filtered Demo.may All (str "2024-05") [])).
Proof.
  assert (NoDup (id <$> Demo.may)) as Hids.
  { apply (bool_decide_unpack _). vm_compute. exact I. }
  split; [exact Hids|].
  exact (recentExpenses_keys Demo.getMonthKey Demo.toLowerCase Demo.may All
           (str "2024-05") [] Hids).
Defined.
